(** * key-value-store-abstract: the abstract store layer

    A shallow embedding of [src/index.js] (class [AbstractStoreLayer]):
    the key and value codecs' entry points, the adjacent-key computation
    and the normalisation of range selectors, followed by the properties
    the specification states about them.

    Layout:
    - JavaScript values, strings and truthiness;
    - thrown errors as a result monad;
    - the methods of the class, in the order of the source, on values;
    - the order on structured keys that the tuple codec realises;
    - the same methods over an explicit object store, where arrays and
      option objects are shared by reference and updated in place;
    - the properties: strings and adjacent keys, the normaliser on the
      specification's examples and on every config, the codecs' entry
      points, what a call writes in the store, and the agreement of the
      two readings of the methods;
    - further properties of the methods: the bounds of every config in
      closed form and what follows from them (direction, prefix, value,
      inclusive and exclusive boundaries, normalising twice, other key
      encodings), the order of the sentinel and neighbour keys, the
      strings a neighbour skips, keys under concatenation, the codecs'
      entry points under every encoding, and which key methods copy. *)

From Stdlib Require Import ZArith List PrimFloat FloatAxioms.
From stdpp Require Import gmap strings list fin_maps.

Set Warnings "-register-all".
Local Open Scope Z_scope.

(** ** JavaScript values *)

(** A JavaScript string is a sequence of UTF-16 code units; a code unit is
    an integer in [0, 65536). *)
Definition code_unit := Z.
Definition jsstring := list code_unit.

Definition wf_jsstring (s : jsstring) : Prop :=
  Forall (fun c => 0 <= c < 65536) s.

(** The code units of an ASCII literal, to write ['m'] as [js "m"]. *)
Fixpoint js (s : string) : jsstring :=
  match s with
  | EmptyString => []
  | String a s' => Z.of_N (Ascii.N_of_ascii a) :: js s'
  end.

(** The values the layer handles: the component kinds of a structured key
    (null, undefined, booleans, numbers, strings, raw byte strings, nested
    keys).  Numbers are IEEE 754 binary64, as in JavaScript. *)
Inductive val : Type :=
| VUndefined
| VNull
| VBool (b : bool)
| VNumber (x : float)
| VString (s : jsstring)
| VBuffer (bs : list Byte.byte)
| VArray (items : list val).

(** A structured key is a JavaScript array of components. *)
Definition key := list val.

(** [!v] is [negb (truthy v)]: undefined, null, false, 0, -0, NaN and the
    empty string are the falsy values; every object (array, Buffer) is
    truthy. *)
Definition truthy (v : val) : bool :=
  match v with
  | VUndefined | VNull => false
  | VBool b => b
  | VNumber x => negb (PrimFloat.eqb x 0 || PrimFloat.is_nan x)
  | VString s => negb (bool_decide (s = []))
  | VBuffer _ | VArray _ => true
  end.

(** [value == null]: loose equality with null holds of null and undefined
    only. *)
Definition loosely_null (v : val) : bool :=
  match v with
  | VUndefined | VNull => true
  | _ => false
  end.

(** ** Errors

    The source throws plain [Error] objects told apart by their message;
    the specification names them.
    - ['Unknown encoding']             : [EncodingError]
    - ['Undefined, null or empty key'] : [InvalidKeyError]
    - ['Unimplemented encoding']       : [UnimplementedEncodingError]
    - ['Invalid key selector']         : [InvalidSelectorError]
    [TypeError] is the runtime's own (a method called on a value that has
    none); [ExternalError] is an exception raised inside an imported
    library ([bytewise], [JSON], [Buffer]); [OutsideModel] marks the one
    runtime behaviour this embedding does not describe
    ([String.prototype.concat], which needs number-to-string conversion). *)
Inductive error : Type :=
| EncodingError
| InvalidKeyError
| UnimplementedEncodingError
| InvalidSelectorError
| TypeError
| ExternalError
| OutsideModel.

Inductive result (A : Type) : Type :=
| Ok (a : A)
| Throw (e : error).
Arguments Ok {A} a.
Arguments Throw {A} e.

#[global] Instance result_ret : MRet result := fun _ a => Ok a.
#[global] Instance result_bind : MBind result := fun _ _ f m =>
  match m with
  | Ok a => f a
  | Throw e => Throw e
  end.

(** An exception of an imported library. *)
Definition external {A} (o : option A) : result A :=
  match o with
  | Some a => Ok a
  | None => Throw ExternalError
  end.

(** ** The imported codecs

    [bytewise], [JSON] and [Buffer] are imported, not part of the
    repository: the layer is parametric in them.  [None] stands for an
    exception raised by the library. *)
Class Externals : Type := {
  (** [bytewise.encode(value)], as bytes *)
  bytewise_encode : val -> option (list Byte.byte);
  (** [bytewise.decode(value)] *)
  bytewise_decode : val -> option val;
  (** [JSON.stringify(value)] for a [value] that is not undefined *)
  JSON_stringify : val -> option jsstring;
  (** [JSON.parse(value)] *)
  JSON_parse : val -> option val;
  (** [new Buffer(string)]: the UTF-8 bytes of a string *)
  Buffer_of_string : jsstring -> list Byte.byte
}.

(** ** The class *)

Record AbstractStoreLayer : Type := {
  keyEncoding : string;
  valueEncoding : string
}.

(** [constructor({ keyEncoding = 'bytewise', valueEncoding = 'json' } = {})] *)
Definition new_AbstractStoreLayer (keyEncoding valueEncoding : option string)
  : AbstractStoreLayer :=
  {| keyEncoding := default "bytewise"%string keyEncoding;
     valueEncoding := default "json"%string valueEncoding |}.

Definition is_bytewise (this : AbstractStoreLayer) : bool :=
  bool_decide (keyEncoding this = "bytewise"%string).

Section codec.
Context `{Externals}.

(** [encode(value, encoding)], lines 17-27. *)
Definition encode (value : val) (encoding : string) : result val :=
  if bool_decide (encoding = "bytewise"%string) then
    bs ← external (bytewise_encode value);
    Ok (VBuffer bs)
  else if bool_decide (encoding = "json"%string) then
    match value with
    | VUndefined => Ok VUndefined
    | _ =>
        s ← external (JSON_stringify value);
        Ok (VBuffer (Buffer_of_string s))
    end
  else Throw EncodingError.

(** [encodeKey(key)], lines 29-32. *)
Definition encodeKey (this : AbstractStoreLayer) (key : val) : result val :=
  if negb (truthy key) then Throw InvalidKeyError
  else encode key (keyEncoding this).

(** [encodeValue(value)], lines 34-37. *)
Definition encodeValue (this : AbstractStoreLayer) (value : val) : result val :=
  if loosely_null value then Ok VUndefined
  else encode value (valueEncoding this).

(** [decode(value, encoding)], lines 39-48. *)
Definition decode (value : val) (encoding : string) : result val :=
  if bool_decide (encoding = "bytewise"%string) then
    external (bytewise_decode value)
  else if bool_decide (encoding = "json"%string) then
    external (JSON_parse value)
  else Throw EncodingError.

(** [decodeKey(key)], lines 50-53. *)
Definition decodeKey (this : AbstractStoreLayer) (key : val) : result val :=
  if negb (truthy key) then Throw InvalidKeyError
  else decode key (keyEncoding this).

(** [decodeValue(value)], lines 55-58. *)
Definition decodeValue (this : AbstractStoreLayer) (value : val) : result val :=
  if loosely_null value then Ok VUndefined
  else decode value (valueEncoding this).
End codec.

(** ** Adjacent keys *)

(** [0.000001], rounded to binary64 as the JavaScript literal is. *)
Definition epsilon : float := 0x1.0c6f7a0b5ed8dp-20%float.

(** [s.substr(-1)]: the last code unit, as a string. *)
Definition substr_last (s : jsstring) : jsstring :=
  drop (length s - 1)%nat s.

(** [s.substr(0, s.length - 1)]: all but the last code unit. *)
Definition substr_init (s : jsstring) : jsstring :=
  take (length s - 1)%nat s.

(** [s.charCodeAt(0)]; [None] is NaN (the string is empty). *)
Definition charCodeAt0 (s : jsstring) : option Z := head s.

(** [String.fromCharCode(n)]: the code unit [ToUint16(n)]; NaN gives 0. *)
Definition String_fromCharCode (n : option Z) : jsstring :=
  match n with
  | Some n => [n mod 65536]
  | None => [0]
  end.

(** The string branch of [_getPreviousKey], lines 74-79. *)
Definition previous_string (key : jsstring) : jsstring :=
  if bool_decide (key = []) then key
  else
    let end_ := substr_last key in
    let key := substr_init key in
    let end_ := String_fromCharCode ((fun c => c - 1) <$> charCodeAt0 end_) in
    let end_ := end_ ++ [65535] in
    key ++ end_.

(** The string branch of [_getNextKey], lines 99-103. *)
Definition next_string (key : jsstring) : jsstring :=
  if bool_decide (key = []) then key
  else
    let end_ := substr_last key in
    let key := substr_init key in
    let end_ := end_ ++ [1] in
    key ++ end_.

(** [_getPreviousKey(key)], lines 70-83. *)
Definition _getPreviousKey (key : val) : val :=
  match key with
  | VNumber x => VNumber (x - epsilon)%float
  | VString s => VString (previous_string s)
  | _ => key
  end.

(** [_getNextKey(key)], lines 95-107. *)
Definition _getNextKey (key : val) : val :=
  match key with
  | VNumber x => VNumber (x + epsilon)%float
  | VString s => VString (next_string s)
  | _ => key
  end.

(** [keys.pop()], the adjacent component, [keys.push(key)] on the
    components of a non-empty array; an empty array is left alone. *)
Definition adjacent_items (f : val -> val) (items : key) : key :=
  match last items with
  | None => items
  | Some k => removelast items ++ [f k]
  end.

(** The body shared by [getPreviousKey] and [getNextKey], lines 62-67 and
    87-92, on the value [keys = clone(key)].
    - an array: [pop] the last component, map it, [push] it back;
    - a primitive number or boolean has no [length]: [!undefined] holds
      and the value is returned;
    - a string or a Buffer has a [length] but no [pop];
    - undefined and null have no properties at all. *)
Definition adjacent (f : val -> val) (keys : val) : result val :=
  match keys with
  | VArray items => Ok (VArray (adjacent_items f items))
  | VNumber _ | VBool _ => Ok keys
  | VString [] | VBuffer [] => Ok keys
  | VString _ | VBuffer _ => Throw TypeError
  | VUndefined | VNull => Throw TypeError
  end.

(** [getPreviousKey(key)], lines 60-68. *)
Definition getPreviousKey (this : AbstractStoreLayer) (key : val) : result val :=
  if negb (is_bytewise this) then Throw UnimplementedEncodingError
  else adjacent _getPreviousKey key.

(** [getNextKey(key)], lines 85-93. *)
Definition getNextKey (this : AbstractStoreLayer) (key : val) : result val :=
  if negb (is_bytewise this) then Throw UnimplementedEncodingError
  else adjacent _getNextKey key.

(** [getEmptyKey()], lines 109-112. *)
Definition getEmptyKey (this : AbstractStoreLayer) : result val :=
  if negb (is_bytewise this) then Throw UnimplementedEncodingError
  else Ok (VArray []).

(** [getMinimumKey()], lines 114-117. *)
Definition getMinimumKey (this : AbstractStoreLayer) : result val :=
  if negb (is_bytewise this) then Throw UnimplementedEncodingError
  else Ok (VArray [VNull]).

(** [getMaximumKey()], lines 119-122. *)
Definition getMaximumKey (this : AbstractStoreLayer) : result val :=
  if negb (is_bytewise this) then Throw UnimplementedEncodingError
  else Ok (VArray [VUndefined]).

(** The components of the key that [normalizeKey(v)] returns: an array's
    own, or the one value. *)
Definition components (v : val) : key :=
  match v with
  | VArray items => items
  | _ => [v]
  end.

(** [normalizeKey(key)], lines 124-128. *)
Definition normalizeKey (this : AbstractStoreLayer) (key : val) : result val :=
  if negb (is_bytewise this) then Throw UnimplementedEncodingError
  else
    match key with
    | VArray _ => Ok key
    | _ => Ok (VArray [key])
    end.

(** [key1.concat(key2)]: an array argument is spread, any other value is
    appended as one element. *)
Definition Array_concat (key1 key2 : val) : result val :=
  match key1 with
  | VArray items1 =>
      match key2 with
      | VArray items2 => Ok (VArray (items1 ++ items2))
      | _ => Ok (VArray (items1 ++ [key2]))
      end
  | VString _ => Throw OutsideModel
  | _ => Throw TypeError
  end.

(** [concatKeys(key1, key2)], lines 130-133. *)
Definition concatKeys (this : AbstractStoreLayer) (key1 key2 : val) : result val :=
  if negb (is_bytewise this) then Throw UnimplementedEncodingError
  else Array_concat key1 key2.

(** ** Range selectors *)

(** A selector config is a plain object: a finite map from its own field
    names to values.  It inherits [hasOwnProperty] from [Object.prototype],
    which has none of the fields read below. *)
Abbreviation config := (gmap string val).

(** [options.hasOwnProperty(name)] *)
Definition hasOwnProperty (options : config) (name : string) : bool :=
  bool_decide (is_Some (options !! name)).

(** [options.name]: undefined when the field is missing. *)
Definition field (options : config) (name : string) : val :=
  default VUndefined (options !! name).

(** [clone(value)] of lodash is a shallow copy; on values without identity
    it is the identity. *)
Definition clone {A} (value : A) : A := value.

(** [normalizeKeySelectors(options)], lines 135-195.  Each [options ← ...]
    is one [if] block of the source, in order. *)
Definition normalizeKeySelectors (this : AbstractStoreLayer) (options : config)
  : result config :=
  let options := clone options in
  (* lines 138-143 *)
  options ←
    (if hasOwnProperty options "value" then
       if hasOwnProperty options "start" then Throw InvalidSelectorError
       else if hasOwnProperty options "end" then Throw InvalidSelectorError
       else
         let options := <["start" := field options "value"]> options in
         let options := <["end" := field options "value"]> options in
         Ok options
     else Ok options);
  (* lines 147-150 *)
  options ←
    (if hasOwnProperty options "start" then
       if hasOwnProperty options "startAfter" then Throw InvalidSelectorError
       else
         start ← normalizeKey this (field options "start");
         Ok (<["start" := start]> options)
     else Ok options);
  (* lines 151-156 *)
  options ←
    (if hasOwnProperty options "startAfter" then
       key ← normalizeKey this (field options "startAfter");
       key ← (if truthy (field options "reverse")
              then getPreviousKey this key else getNextKey this key);
       let options := <["start" := key]> options in
       Ok (delete "startAfter" options)
     else Ok options);
  (* lines 157-159 *)
  options ←
    (if negb (hasOwnProperty options "start") then
       start ← getEmptyKey this;
       Ok (<["start" := start]> options)
     else Ok options);
  (* lines 160-162 *)
  options ←
    (if truthy (field options "reverse") then
       maximum ← getMaximumKey this;
       start ← concatKeys this (field options "start") maximum;
       Ok (<["start" := start]> options)
     else Ok options);
  (* lines 164-167 *)
  options ←
    (if hasOwnProperty options "end" then
       if hasOwnProperty options "endBefore" then Throw InvalidSelectorError
       else
         end_ ← normalizeKey this (field options "end");
         Ok (<["end" := end_]> options)
     else Ok options);
  (* lines 168-173 *)
  options ←
    (if hasOwnProperty options "endBefore" then
       key ← normalizeKey this (field options "endBefore");
       key ← (if truthy (field options "reverse")
              then getNextKey this key else getPreviousKey this key);
       let options := <["end" := key]> options in
       Ok (delete "endBefore" options)
     else Ok options);
  (* lines 174-176 *)
  options ←
    (if negb (hasOwnProperty options "end") then
       end_ ← getEmptyKey this;
       Ok (<["end" := end_]> options)
     else Ok options);
  (* lines 177-179 *)
  options ←
    (if negb (truthy (field options "reverse")) then
       maximum ← getMaximumKey this;
       end_ ← concatKeys this (field options "end") maximum;
       Ok (<["end" := end_]> options)
     else Ok options);
  (* lines 181-186 *)
  options ←
    (if hasOwnProperty options "prefix" then
       prefix ← normalizeKey this (field options "prefix");
       start ← concatKeys this prefix (field options "start");
       let options := <["start" := start]> options in
       end_ ← concatKeys this prefix (field options "end");
       let options := <["end" := end_]> options in
       Ok (delete "prefix" options)
     else Ok options);
  (* lines 188-192 *)
  options ←
    (if truthy (field options "reverse") then
       let tmp := field options "start" in
       let options := <["start" := field options "end"]> options in
       let options := <["end" := tmp]> options in
       Ok options
     else Ok options);
  Ok options.

(** The layer as constructed by default, and with another value encoding. *)
Definition bytewise_layer (valueEncoding : string) : AbstractStoreLayer :=
  {| keyEncoding := "bytewise"; valueEncoding := valueEncoding |}.

(** ** The order on structured keys *)

(** Lexicographic comparison; a proper prefix sorts first. *)
Fixpoint lex_compare {A} (cmp : A -> A -> comparison) (a b : list A) : comparison :=
  match a, b with
  | [], [] => Eq
  | [], _ :: _ => Lt
  | _ :: _, [] => Gt
  | x :: a', y :: b' =>
      match cmp x y with
      | Eq => lex_compare cmp a' b'
      | c => c
      end
  end.

(** Strings compare by code unit. *)
Definition str_compare (s t : jsstring) : comparison := lex_compare Z.compare s t.
Definition str_lt (s t : jsstring) : Prop := str_compare s t = Lt.

Definition float_compare (x y : float) : comparison :=
  match PrimFloat.compare x y with
  | FLt => Lt
  | FGt => Gt
  | FEq | FNotComparable => Eq
  end.

Definition byte_compare (a b : Byte.byte) : comparison :=
  N.compare (Byte.to_N a) (Byte.to_N b).

(** Modelled from the spec: the order of key components that the tuple
    codec ([bytewise], imported, not in the repository) realises on its
    encodings.  The kinds are totally ordered, the minimum sentinel null
    first and the maximum sentinel undefined last; within a kind the
    values compare by their own order, strings and nested keys
    lexicographically.  The places of the kinds in between are those of
    the [bytewise] package; the theorems below use only the two sentinels'
    places and the order of strings. *)
Definition kind_rank (v : val) : nat :=
  match v with
  | VNull => 0
  | VBool false => 1
  | VBool true => 2
  | VNumber _ => 3
  | VBuffer _ => 4
  | VString _ => 5
  | VArray _ => 6
  | VUndefined => 7
  end.

Fixpoint val_compare (x y : val) : comparison :=
  match x, y with
  | VNumber a, VNumber b => float_compare a b
  | VBuffer s, VBuffer t => lex_compare byte_compare s t
  | VString s, VString t => str_compare s t
  | VArray l1, VArray l2 => lex_compare val_compare l1 l2
  | _, _ => Nat.compare (kind_rank x) (kind_rank y)
  end.

(** Modelled from the spec: the order of structured keys, which the
    codec's order isomorphism makes the order of their encodings:
    component by component, a key sorting before its extensions. *)
Definition key_compare (a b : key) : comparison := lex_compare val_compare a b.

Definition key_lt (a b : key) : Prop := key_compare a b = Lt.
Definition key_le (a b : key) : Prop := key_compare a b <> Gt.

(** [k] lies in the half-open range [[start, end_)]. *)
Definition in_range (start end_ k : key) : Prop :=
  key_le start k /\ key_lt k end_.

(** ** The methods over an object store

    Arrays, Buffers and option objects are objects with identity: a
    variable holds a reference, two references may name one object, and
    [pop], [push], a field assignment or [delete] update the object in
    place.  The methods are written out again over a store of objects to
    follow what each call reads, allocates and writes; [StoreAgreement]
    relates them to the methods on values. *)
Module Store.

Definition loc := positive.

(** A value is a primitive or a reference to an object. *)
Inductive value : Type :=
| Undefined
| Null
| Bool (b : bool)
| Number (x : float)
| String (s : jsstring)
| Ref (l : loc).

Inductive object : Type :=
| Array (items : list value)
| Buffer (bs : list Byte.byte)
| Plain (fields : gmap string value).

Abbreviation store := (gmap loc object).

(** A computation reads and updates the store and returns or throws; the
    store survives a throw. *)
Definition M (A : Type) : Type := store -> result A * store.

#[global] Instance M_ret : MRet M := fun _ a h => (Ok a, h).
#[global] Instance M_bind : MBind M := fun _ _ f m h =>
  match m h with
  | (Ok a, h') => f a h'
  | (Throw e, h') => (Throw e, h')
  end.

Definition throw {A} (e : error) : M A := fun h => (Throw e, h).

(** A new object, at a location the store does not use yet. *)
Definition alloc (o : object) : M value :=
  fun h => let l := fresh (dom h) in (Ok (Ref l), <[l := o]> h).

(** The object a reference names.  A program cannot hold a reference to
    no object; the case is kept apart from the runtime's errors. *)
Definition read (l : loc) : M object :=
  fun h => match h !! l with
           | Some o => (Ok o, h)
           | None => (Throw OutsideModel, h)
           end.

Definition write (l : loc) (o : object) : M unit :=
  fun h => (Ok tt, <[l := o]> h).

Definition truthy (v : value) : bool :=
  match v with
  | Undefined | Null => false
  | Bool b => b
  | Number x => negb (PrimFloat.eqb x 0 || PrimFloat.is_nan x)
  | String s => negb (bool_decide (s = []))
  | Ref _ => true
  end.

(** [clone(value)] of lodash: a primitive is returned as it is; an
    object is copied one level deep into a new object whose fields or
    items are the same values, references included. *)
Definition clone (v : value) : M value :=
  match v with
  | Ref l => o ← read l; alloc o
  | _ => mret v
  end.

(** [Array.isArray(v)] *)
Definition isArray (v : value) : M bool :=
  match v with
  | Ref l =>
      o ← read l;
      mret (match o with Array _ => true | _ => false end)
  | _ => mret false
  end.

(** The option object behind [options]: undefined and null have no
    properties; the embedding follows plain objects only. *)
Definition as_plain (options : value) : M loc :=
  match options with
  | Ref l =>
      o ← read l;
      match o with
      | Plain _ => mret l
      | _ => throw OutsideModel
      end
  | Undefined | Null => throw TypeError
  | _ => throw OutsideModel
  end.

Definition fields_of (l : loc) : M (gmap string value) :=
  o ← read l;
  match o with
  | Plain fields => mret fields
  | _ => throw OutsideModel
  end.

(** [options.hasOwnProperty(name)] *)
Definition hasOwnProperty (l : loc) (name : string) : M bool :=
  fields ← fields_of l;
  mret (bool_decide (is_Some (fields !! name))).

(** [options.name] *)
Definition get (l : loc) (name : string) : M value :=
  fields ← fields_of l;
  mret (default Undefined (fields !! name)).

(** [options.name = v] *)
Definition set (l : loc) (name : string) (v : value) : M unit :=
  fields ← fields_of l;
  write l (Plain (<[name := v]> fields)).

(** [delete options.name] *)
Definition delete_field (l : loc) (name : string) : M unit :=
  fields ← fields_of l;
  write l (Plain (delete name fields)).

(** [_getPreviousKey(key)], lines 70-83; a reference has type
    ['object']. *)
Definition _getPreviousKey (key : value) : value :=
  match key with
  | Number x => Number (x - epsilon)%float
  | String s => String (previous_string s)
  | _ => key
  end.

(** [_getNextKey(key)], lines 95-107. *)
Definition _getNextKey (key : value) : value :=
  match key with
  | Number x => Number (x + epsilon)%float
  | String s => String (next_string s)
  | _ => key
  end.

(** Lines 63-67 and 88-92 on [keys], the clone: [keys.length], then
    [keys.pop()], the adjacent component, [keys.push(key)]. *)
Definition adjacent (f : value -> value) (keys : value) : M value :=
  match keys with
  | Ref l =>
      o ← read l;
      match o with
      | Array items =>
          match last items with
          | None => mret keys
          | Some key =>
              write l (Array (removelast items));;
              let key := f key in
              o ← read l;
              match o with
              | Array items => write l (Array (items ++ [key]));; mret keys
              | _ => throw OutsideModel
              end
          end
      | Buffer [] => mret keys
      | Buffer _ => throw TypeError
      | Plain fields =>
          if negb (truthy (default Undefined (fields !! "length"%string)))
          then mret keys else throw TypeError
      end
  | Number _ | Bool _ => mret keys
  | String [] => mret keys
  | String _ => throw TypeError
  | Undefined | Null => throw TypeError
  end.

(** [getPreviousKey(key)], lines 60-68. *)
Definition getPreviousKey (this : AbstractStoreLayer) (key : value) : M value :=
  if negb (is_bytewise this) then throw UnimplementedEncodingError
  else keys ← clone key; adjacent _getPreviousKey keys.

(** [getNextKey(key)], lines 85-93. *)
Definition getNextKey (this : AbstractStoreLayer) (key : value) : M value :=
  if negb (is_bytewise this) then throw UnimplementedEncodingError
  else keys ← clone key; adjacent _getNextKey keys.

(** [getEmptyKey()], lines 109-112: a new array each call. *)
Definition getEmptyKey (this : AbstractStoreLayer) : M value :=
  if negb (is_bytewise this) then throw UnimplementedEncodingError
  else alloc (Array []).

(** [getMaximumKey()], lines 119-122. *)
Definition getMaximumKey (this : AbstractStoreLayer) : M value :=
  if negb (is_bytewise this) then throw UnimplementedEncodingError
  else alloc (Array [Undefined]).

(** [normalizeKey(key)], lines 124-128: an array is returned itself, not
    a copy. *)
Definition normalizeKey (this : AbstractStoreLayer) (key : value) : M value :=
  if negb (is_bytewise this) then throw UnimplementedEncodingError
  else
    b ← isArray key;
    if negb b then alloc (Array [key]) else mret key.

(** [key1.concat(key2)]: a new array. *)
Definition Array_concat (key1 key2 : value) : M value :=
  match key1 with
  | Ref l1 =>
      o1 ← read l1;
      match o1 with
      | Array items1 =>
          match key2 with
          | Ref l2 =>
              o2 ← read l2;
              match o2 with
              | Array items2 => alloc (Array (items1 ++ items2))
              | _ => alloc (Array (items1 ++ [key2]))
              end
          | _ => alloc (Array (items1 ++ [key2]))
          end
      | _ => throw TypeError
      end
  | String _ => throw OutsideModel
  | _ => throw TypeError
  end.

(** [concatKeys(key1, key2)], lines 130-133. *)
Definition concatKeys (this : AbstractStoreLayer) (key1 key2 : value) : M value :=
  if negb (is_bytewise this) then throw UnimplementedEncodingError
  else Array_concat key1 key2.

(** [if (c) body]. *)
Definition when (c : bool) (body : M unit) : M unit :=
  if c then body else mret tt.

(** [normalizeKeySelectors(options)], lines 135-195. *)
Definition normalizeKeySelectors (this : AbstractStoreLayer) (options : value)
  : M value :=
  options ← clone options;
  o ← as_plain options;
  (* lines 138-143 *)
  has_value ← hasOwnProperty o "value";
  when has_value (
    has_start ← hasOwnProperty o "start";
    when has_start (throw InvalidSelectorError);;
    has_end ← hasOwnProperty o "end";
    when has_end (throw InvalidSelectorError);;
    v ← get o "value"; set o "start" v;;
    v ← get o "value"; set o "end" v);;
  (* lines 147-150 *)
  has_start ← hasOwnProperty o "start";
  when has_start (
    has_startAfter ← hasOwnProperty o "startAfter";
    when has_startAfter (throw InvalidSelectorError);;
    v ← get o "start"; start ← normalizeKey this v; set o "start" start);;
  (* lines 151-156 *)
  has_startAfter ← hasOwnProperty o "startAfter";
  when has_startAfter (
    v ← get o "startAfter"; key ← normalizeKey this v;
    reverse ← get o "reverse";
    key ← (if truthy reverse then getPreviousKey this key else getNextKey this key);
    set o "start" key;;
    delete_field o "startAfter");;
  (* lines 157-159 *)
  has_start ← hasOwnProperty o "start";
  when (negb has_start) (
    start ← getEmptyKey this; set o "start" start);;
  (* lines 160-162 *)
  reverse ← get o "reverse";
  when (truthy reverse) (
    start ← get o "start"; maximum ← getMaximumKey this;
    start ← concatKeys this start maximum; set o "start" start);;
  (* lines 164-167 *)
  has_end ← hasOwnProperty o "end";
  when has_end (
    has_endBefore ← hasOwnProperty o "endBefore";
    when has_endBefore (throw InvalidSelectorError);;
    v ← get o "end"; end_ ← normalizeKey this v; set o "end" end_);;
  (* lines 168-173 *)
  has_endBefore ← hasOwnProperty o "endBefore";
  when has_endBefore (
    v ← get o "endBefore"; key ← normalizeKey this v;
    reverse ← get o "reverse";
    key ← (if truthy reverse then getNextKey this key else getPreviousKey this key);
    set o "end" key;;
    delete_field o "endBefore");;
  (* lines 174-176 *)
  has_end ← hasOwnProperty o "end";
  when (negb has_end) (
    end_ ← getEmptyKey this; set o "end" end_);;
  (* lines 177-179 *)
  reverse ← get o "reverse";
  when (negb (truthy reverse)) (
    end_ ← get o "end"; maximum ← getMaximumKey this;
    end_ ← concatKeys this end_ maximum; set o "end" end_);;
  (* lines 181-186 *)
  has_prefix ← hasOwnProperty o "prefix";
  when has_prefix (
    v ← get o "prefix"; prefix ← normalizeKey this v;
    start ← get o "start"; start ← concatKeys this prefix start;
    set o "start" start;;
    end_ ← get o "end"; end_ ← concatKeys this prefix end_;
    set o "end" end_;;
    delete_field o "prefix");;
  (* lines 188-192 *)
  reverse ← get o "reverse";
  when (truthy reverse) (
    tmp ← get o "start";
    end_ ← get o "end"; set o "start" end_;;
    set o "end" tmp);;
  mret options.

(** *** What a computation leaves alone *)

(** A reference to an object that [h0] does not hold: one allocated
    since. *)
Definition new_ref (h0 : store) (v : value) : Prop :=
  exists l, v = Ref l /\ h0 !! l = None.

Definition new_or_primitive (h0 : store) (v : value) : Prop :=
  match v with
  | Ref l => h0 !! l = None
  | _ => True
  end.

(** [frames h0 m P]: run from any store that extends [h0], [m] ends in a
    store that still extends [h0], every object of [h0] in place and
    unchanged, and what it returns satisfies [P]. *)
Definition frames (h0 : store) {A} (m : M A) (P : A -> Prop) : Prop :=
  forall h, h0 ⊆ h ->
    h0 ⊆ (m h).2 /\ match (m h).1 with Ok a => P a | Throw _ => True end.

(** [safe h0 m]: [m] leaves the objects of [h0] as they are. *)
Definition safe (h0 : store) {A} (m : M A) : Prop := frames h0 m (fun _ => True).

(** *** Values behind references *)

(** [rep h v x]: in the store [h], the value [v] stands for [x]. *)
Fixpoint rep (h : store) (v : value) (x : val) {struct x} : Prop :=
  match x with
  | VUndefined => v = Undefined
  | VNull => v = Null
  | VBool b => v = Bool b
  | VNumber n => v = Number n
  | VString s => v = String s
  | VBuffer bs => exists l, v = Ref l /\ h !! l = Some (Buffer bs)
  | VArray xs =>
      exists l items, v = Ref l /\ h !! l = Some (Array items) /\
      (fix all (items : list value) (xs : list val) {struct xs} : Prop :=
         match items, xs with
         | [], [] => True
         | i :: items, x :: xs => rep h i x /\ all items xs
         | _, _ => False
         end) items xs
  end.

Arguments rep : simpl never.

(** A field of an option object stands for a field of a config: both
    missing, or both present and related. *)
Definition rep_field (h : store) (v : option value) (x : option val) : Prop :=
  match v, x with
  | Some v, Some x => rep h v x
  | None, None => True
  | _, _ => False
  end.

Definition rep_fields (h : store) (f : gmap string value) (c : config) : Prop :=
  forall name, rep_field h (f !! name) (c !! name).

(** The option object at [o] stands for the config [c]. *)
Definition rep_config (h : store) (o : loc) (c : config) : Prop :=
  exists f, h !! o = Some (Plain f) /\ rep_fields h f c.

(** Arrays and Buffers of [h] are in [h'] as they are. *)
Definition keeps_keys (h h' : store) : Prop :=
  forall l ob, h !! l = Some ob ->
    match ob with Plain _ => True | _ => h' !! l = Some ob end.

(** The two models agree on a call: both return, related by [R] in the
    final store, or both throw the same error; [ext] relates the initial
    store to the final one. *)
Definition agree {A B} (ext : store -> store -> Prop) (R : store -> B -> A -> Prop)
    (h : store) (p : result A) (s : result B * store) : Prop :=
  match p, s with
  | Ok a, (Ok b, h') => ext h h' /\ R h' b a
  | Throw e, (Throw e', h') => e = e' /\ ext h h'
  | _, _ => False
  end.

(** What the two models return at the end: the new option object stands
    for the returned config. *)
Definition rep_result (h : store) (v : value) (c : config) : Prop :=
  exists o, v = Ref o /\ rep_config h o c.

(** The outcome [s] of a call over the store is the outcome [p] of the
    call on values; the stores in between are not constrained. *)
Definition same_outcome (p : result config) (s : result value * store) : Prop :=
  agree (fun _ _ => True) rep_result ∅ p s.

(** The state of a run: the option object [o] holds [f], which stands for
    the config [c] of the other model. *)
Definition at_config (h : store) (o : loc) (f : gmap string value) (c : config) : Prop :=
  h !! o = Some (Plain f) /\ rep_fields h f c.

(** Stores for the examples: the array [['m']] at 1 and, at 2, the config
    [{startAfter: <1>, reverse: true}] or [{start: <1>}], whose field
    refers to the array. *)
Definition store_startAfter : store :=
  <[2%positive := Plain (<["startAfter" := Ref 1%positive]>
                           (<["reverse" := Bool true]> ∅))]>
    (<[1%positive := Array [String (js "m")]]> ∅).

Definition store_start : store :=
  <[2%positive := Plain (<["start" := Ref 1%positive]> ∅)]>
    (<[1%positive := Array [String (js "m")]]> ∅).

End Store.

(** ** What a normalised selector selects *)

(** The pair [(start, end)] of a returned object, when both are arrays. *)
Definition bounds (options : config) : option (key * key) :=
  match options !! "start", options !! "end" with
  | Some (VArray start), Some (VArray end_) => Some (start, end_)
  | _, _ => None
  end.

Definition range_of (r : result config) : option (key * key) :=
  match r with
  | Ok options => bounds options
  | Throw _ => None
  end.

(** The selector [{startAfter: ['m'], reverse: true}]. *)
Definition startAfter_m_reverse : config :=
  <["startAfter" := VArray [VString (js "m")]]> (<["reverse" := VBool true]> ∅).

(** The selector [{prefix: ['a']}]. *)
Definition prefix_a : config := <["prefix" := VArray [VString (js "a")]]> ∅.


(** The pairs the source rejects: [value] stands for both [start] and
    [end], so it also excludes [startAfter] and [endBefore]. *)
Definition conflict (options : config) : bool :=
  hasOwnProperty options "value"
    && (hasOwnProperty options "start" || hasOwnProperty options "end"
        || hasOwnProperty options "startAfter"
        || hasOwnProperty options "endBefore")
  || hasOwnProperty options "start" && hasOwnProperty options "startAfter"
  || hasOwnProperty options "end" && hasOwnProperty options "endBefore".

(** The fields the normaliser assigns or deletes. *)
Definition resolved_names : list string :=
  ["start"; "end"; "startAfter"; "endBefore"; "prefix"]%string.

(** The outcome of normalising [options]: a throw is an
    [InvalidSelectorError] on a conflict; a returned object holds arrays
    under [start] and [end], has no [startAfter], [endBefore] or [prefix],
    and carries every other field of [options] over. *)
Definition normalized (options : config) (r : result config) : Prop :=
  match r with
  | Ok r =>
      conflict options = false /\
      (exists s e, r !! "start" = Some (VArray s) /\ r !! "end" = Some (VArray e)) /\
      r !! "startAfter" = None /\ r !! "endBefore" = None /\
      r !! "prefix" = None /\
      (forall f, f ∉ resolved_names -> r !! f = options !! f)
  | Throw e => e = InvalidSelectorError /\ conflict options = true
  end.

(** ** The bounds a config asks for

    What the blocks of [normalizeKeySelectors] amount to, field by field,
    for a config without conflict; [normalize_bounds] below proves that
    the method returns these bounds. *)


(** Lines 181-186: the prefix goes in front of a bound. *)
Definition with_prefix (options : config) (k : key) : key :=
  match options !! "prefix" with
  | Some p => components p ++ k
  | None => k
  end.

(** Lines 138-162, the bound held by [options.start] before the final
    swap: [value], else [start], else the neighbour of [startAfter], else
    the empty key; under [reverse] the maximum sentinel is appended. *)
Definition lower_bound (options : config) : key :=
  let reverse := truthy (field options "reverse") in
  let base :=
    match options !! "value", options !! "start", options !! "startAfter" with
    | Some v, _, _ => components v
    | None, Some s, _ => components s
    | None, None, Some a =>
        adjacent_items (if reverse then _getPreviousKey else _getNextKey)
          (components a)
    | None, None, None => []
    end in
  if reverse then base ++ [VUndefined] else base.

(** Lines 138-143 and 164-179, the bound held by [options.end] before the
    final swap. *)
Definition upper_bound (options : config) : key :=
  let reverse := truthy (field options "reverse") in
  let base :=
    match options !! "value", options !! "end", options !! "endBefore" with
    | Some v, _, _ => components v
    | None, Some e, _ => components e
    | None, None, Some b =>
        adjacent_items (if reverse then _getNextKey else _getPreviousKey)
          (components b)
    | None, None, None => []
    end in
  if reverse then base else base ++ [VUndefined].

(** Lines 181-192: both bounds under the prefix, swapped under
    [reverse]. *)
Definition resolved_bounds (options : config) : key * key :=
  let lower := with_prefix options (lower_bound options) in
  let upper := with_prefix options (upper_bound options) in
  if truthy (field options "reverse") then (upper, lower) else (lower, upper).

Definition resolves (options : config) (r : result config) : Prop :=
  match r with
  | Ok r => bounds r = Some (resolved_bounds options)
  | Throw _ => True
  end.

(** [o] with the field [n] set to [v], or without it. *)
Definition put (n : string) (v : option val) (o : config) : config :=
  match v with
  | Some v => <[n := v]> o
  | None => delete n o
  end.

(** [o] with what it holds under [a] and under [b] exchanged. *)
Definition exchange (a b : string) (o : config) : config :=
  put a (o !! b) (put b (o !! a) o).

(** The selector that names the same boundaries in the other direction:
    [start] for [end], [startAfter] for [endBefore], and no [reverse]. *)
Definition mirror (o : config) : config :=
  exchange "startAfter" "endBefore" (exchange "start" "end" (delete "reverse" o)).


(** The components [_getPreviousKey] and [_getNextKey] compute a
    neighbour for: numbers and non-empty strings (lines 71-79, 96-103);
    any other component is returned as it is. *)
Definition stepped (c : val) : bool :=
  match c with
  | VNumber _ => true
  | VString s => negb (bool_decide (s = []))
  | _ => false
  end.

(** Configs for the examples. *)
Definition value_5 : config := <["value" := VNumber 5]> ∅.


Definition startAfter_true : config := <["startAfter" := VArray [VBool true]]> ∅.


Definition endBefore_true : config := <["endBefore" := VArray [VBool true]]> ∅.

Definition limit_10 : config := <["limit" := VNumber 10]> ∅.

(** ** Keys and values across the codecs *)

(** The keys the specification calls empty, null or absent: the empty
    string, null, undefined. *)
Definition absent_key (key : val) : bool :=
  match key with
  | VUndefined | VNull | VString [] => true
  | _ => false
  end.

(** A key is representable under the tuple scheme when the imported codec
    encodes it and decodes the bytes back to it; a value is representable
    under the JSON scheme when [JSON.parse] reads back the bytes of its
    [JSON.stringify] text. *)
Definition bytewise_representable `{Externals} (k : val) : Prop :=
  exists bs, bytewise_encode k = Some bs /\ bytewise_decode (VBuffer bs) = Some k.

Definition json_representable `{Externals} (v : val) : Prop :=
  exists s, JSON_stringify v = Some s /\
            JSON_parse (VBuffer (Buffer_of_string s)) = Some v.

(** The encodings [encode] and [decode] have a case for. *)
Definition known_encoding (encoding : string) : bool :=
  bool_decide (encoding = "bytewise"%string) || bool_decide (encoding = "json"%string).

(** What round-trips under an encoding: under ['bytewise'] what the tuple
    codec represents, under ['json'] what JSON represents, undefined
    apart; nothing under another encoding. *)
Definition representable_under `{Externals} (encoding : string) (v : val) : Prop :=
  if bool_decide (encoding = "bytewise"%string) then bytewise_representable v
  else if bool_decide (encoding = "json"%string)
       then json_representable v /\ v <> VUndefined
       else False.

(** A finite fragment of the imported functions, enough to run the codecs
    on literals: the JSON text of null, true and false and its parsing,
    the one-byte bytewise encodings of null, false, true and undefined,
    and the bytes of ASCII text.  Outside the fragment the functions are
    taken to throw. *)
Definition ascii_bytes (s : jsstring) : list Byte.byte :=
  (fun c => default Byte.x00 (Byte.of_N (Z.to_N c))) <$> s.

Definition is_text (bs : list Byte.byte) (text : string) : bool :=
  bool_decide (Z.of_N <$> (Byte.to_N <$> bs) = js text).

#[local] Instance literal_externals : Externals := {|
  bytewise_encode v :=
    match v with
    | VNull => Some [Byte.x10]
    | VBool false => Some [Byte.x20]
    | VBool true => Some [Byte.x21]
    | VUndefined => Some [Byte.xf0]
    | _ => None
    end;
  bytewise_decode v :=
    match v with
    | VBuffer [Byte.x10] => Some VNull
    | VBuffer [Byte.x20] => Some (VBool false)
    | VBuffer [Byte.x21] => Some (VBool true)
    | VBuffer [Byte.xf0] => Some VUndefined
    | _ => None
    end;
  JSON_stringify v :=
    match v with
    | VNull => Some (js "null")
    | VBool true => Some (js "true")
    | VBool false => Some (js "false")
    | _ => None
    end;
  JSON_parse v :=
    match v with
    | VBuffer bs =>
        if is_text bs "null" then Some VNull
        else if is_text bs "true" then Some (VBool true)
        else if is_text bs "false" then Some (VBool false)
        else None
    | _ => None
    end;
  Buffer_of_string := ascii_bytes
|}.

(** * Properties *)

(** ** Strings and their neighbours *)

Lemma lex_compare_app {A} (cmp : A -> A -> comparison) (p a b : list A) :
  (forall x, cmp x x = Eq) ->
  lex_compare cmp (p ++ a) (p ++ b) = lex_compare cmp a b.
Proof.
  intros Hrefl. induction p as [|x p IH]; simpl; [reflexivity|].
  now rewrite Hrefl.
Qed.

Lemma str_compare_app (p a b : jsstring) :
  str_compare (p ++ a) (p ++ b) = str_compare a b.
Proof. apply lex_compare_app, Z.compare_refl. Qed.

(** A non-empty string is its [substr(0, length - 1)] followed by its
    [substr(-1)], which is one code unit. *)
Lemma substr_split (s : jsstring) :
  s <> [] -> exists c, substr_last s = [c] /\ s = substr_init s ++ [c].
Proof.
  intros Hs. unfold substr_last, substr_init.
  destruct (drop (length s - 1) s) as [|c [|d t]] eqn:Hd.
  - apply (f_equal length) in Hd. rewrite length_drop in Hd.
    destruct s; [congruence | simpl in Hd; lia].
  - exists c. split; [reflexivity|].
    rewrite <- Hd. symmetry. apply take_drop.
  - apply (f_equal length) in Hd. rewrite length_drop in Hd. simpl in Hd. lia.
Qed.

Lemma next_string_eq (s : jsstring) : s <> [] -> next_string s = s ++ [1].
Proof.
  intros Hs. unfold next_string. rewrite bool_decide_eq_false_2 by assumption.
  destruct (substr_split s Hs) as (c & Hlast & Hsplit).
  cbv zeta. rewrite Hlast, app_assoc. now rewrite <- Hsplit.
Qed.





(** C4, adjacency bracketing of strings: [previous(s) < s < next(s)] for
    every non-empty string [s].  The successor side holds
    ([next_string_gt]); the predecessor side holds when the last code unit
    is not 0 ([previous_string_lt]) and fails at the string made of the
    code unit 0: [charCodeAt(0) - 1] is -1, [String.fromCharCode] wraps it
    to 65535, and the result sorts above the string. *)
Theorem C4_previous_of_nul_sorts_above :
  _getPreviousKey (VString [0]) = VString [65535; 65535] /\
  _getNextKey (VString [0]) = VString [0; 1] /\
  wf_jsstring [0] /\
  str_compare (previous_string [0]) [0] = Gt /\
  ~ (str_lt (previous_string [0]) [0] /\ str_lt [0] (next_string [0])).
Proof.
  repeat split.
  - repeat constructor; lia.
  - intros [H _]. discriminate H.
Qed.

(** ** Adjacent keys *)

Lemma adjacent_items_spec (f : val -> val) (k : key) :
  length (adjacent_items f k) = length k /\
  removelast (adjacent_items f k) = removelast k.
Proof.
  unfold adjacent_items. destruct (last k) as [c|] eqn:Hlast.
  - apply last_Some in Hlast as [front ->].
    rewrite !removelast_last, !length_app. split; reflexivity.
  - split; reflexivity.
Qed.

Lemma adjacent_array (f : val -> val) (k : key) :
  exists k', adjacent f (VArray k) = Ok (VArray k') /\
             length k' = length k /\ removelast k' = removelast k.
Proof. exists (adjacent_items f k). split; [reflexivity | apply adjacent_items_spec]. Qed.

(** C7: [getPreviousKey] and [getNextKey] return a key of the same length
    whose components before the last are those of the argument, and both
    return the empty key for the empty key. *)
Theorem C7_adjacent_keys_change_the_last_component_only
  (valueEncoding : string) (k : key) :
  let this := bytewise_layer valueEncoding in
  (exists k1 k2,
     getPreviousKey this (VArray k) = Ok (VArray k1) /\
     getNextKey this (VArray k) = Ok (VArray k2) /\
     length k1 = length k /\ removelast k1 = removelast k /\
     length k2 = length k /\ removelast k2 = removelast k) /\
  getPreviousKey this (VArray []) = Ok (VArray []) /\
  getNextKey this (VArray []) = Ok (VArray []).
Proof.
  intros this. split; [|split; reflexivity].
  destruct (adjacent_array _getPreviousKey k) as (k1 & H1 & Hl1 & Hr1).
  destruct (adjacent_array _getNextKey k) as (k2 & H2 & Hl2 & Hr2).
  exists k1, k2. unfold getPreviousKey, getNextKey. simpl.
  repeat split; assumption.
Qed.

(** ** Normalising selectors: the examples of the specification *)

(** C3: the empty config, forward, normalises to [start = []] and
    [end = [undefined]]. *)
Theorem C3_empty_config_is_the_full_range (valueEncoding : string) :
  normalizeKeySelectors (bytewise_layer valueEncoding) ∅
  = Ok (<["end" := VArray [VUndefined]]> (<["start" := VArray []]> ∅)).
Proof. reflexivity. Qed.

(** Facts on the order of components. *)
Lemma val_compare_undefined_max (c : val) :
  c <> VUndefined -> val_compare c VUndefined = Lt.
Proof. destruct c as [| |[]| | | |]; intros Hc; try reflexivity. congruence. Qed.

Lemma val_compare_string_l (s : jsstring) (c : val) :
  val_compare (VString s) c <> Gt ->
  (exists t, c = VString t /\ str_compare s t <> Gt) \/
  (forall t, val_compare c (VString t) = Gt).
Proof.
  destruct c as [| |[]| |t| |]; simpl; intros Hc;
    try (exfalso; apply Hc; reflexivity);
    try (right; intros; reflexivity).
  left. exists t. split; [reflexivity | assumption].
Qed.

(** Every string at or above ['m'] is above ['l\uFFFF']. *)
Lemma str_above_m (t : jsstring) :
  str_compare (js "m") t <> Gt -> str_compare t (js "l" ++ [65535]) = Gt.
Proof.
  change (js "m") with [109]. change (js "l" ++ [65535]) with [108; 65535].
  unfold str_compare. destruct t as [|u t]; cbn [lex_compare]; [congruence|].
  destruct (Z.compare_spec 109 u) as [Hu|Hu|Hu]; intros H; try congruence.
  - subst u. reflexivity.
  - assert ((u ?= 108) = Gt) as -> by (apply Z.compare_gt_iff; lia).
    reflexivity.
Qed.

(** C1: for [{startAfter: ['m'], reverse: true}] the normalised range is
    [[], ['l\uFFFF', undefined])], and no key sorting at or after ['m']
    lies in it. *)
Theorem C1_startAfter_under_reverse_excludes_from_m
  (valueEncoding : string) (k : key) :
  key_le [VString (js "m")] k ->
  range_of (normalizeKeySelectors (bytewise_layer valueEncoding)
              startAfter_m_reverse)
  = Some ([], [VString (js "l" ++ [65535]); VUndefined]) /\
  ~ in_range [] [VString (js "l" ++ [65535]); VUndefined] k.
Proof.
  intros Hk. split; [reflexivity|].
  intros [_ Hlt]. unfold key_le, key_lt, key_compare in *.
  destruct k as [|c rest]; cbn [lex_compare] in Hk, Hlt; [congruence|].
  assert (val_compare (VString (js "m")) c <> Gt) as Hc.
  { intros Hgt. rewrite Hgt in Hk. congruence. }
  assert (val_compare c (VString (js "l" ++ [65535])) = Gt) as Hgt.
  { destruct (val_compare_string_l _ _ Hc) as [(t & -> & Ht)|Hother].
    - cbn [val_compare]. now apply str_above_m.
    - apply Hother. }
  rewrite Hgt in Hlt. discriminate.
Qed.

Lemma C1_startAfter_under_reverse_witness :
  key_le [VString (js "m")] [VString (js "m")] /\
  ~ in_range [] [VString (js "l" ++ [65535]); VUndefined] [VString (js "m")].
Proof.
  assert (key_le [VString (js "m")] [VString (js "m")]) as H.
  { unfold key_le. vm_compute. discriminate. }
  split; [exact H|].
  exact (proj2 (C1_startAfter_under_reverse_excludes_from_m "json" _ H)).
Defined.




(** ** Normalising selectors: every config *)

(** On a layer with the bytewise key encoding the key methods return. *)
Lemma normalizeKey_bytewise ve v :
  normalizeKey (bytewise_layer ve) v = Ok (VArray (components v)).
Proof. destruct v; reflexivity. Qed.

Lemma getEmptyKey_bytewise ve : getEmptyKey (bytewise_layer ve) = Ok (VArray []).
Proof. reflexivity. Qed.
Lemma getMaximumKey_bytewise ve : getMaximumKey (bytewise_layer ve) = Ok (VArray [VUndefined]).
Proof. reflexivity. Qed.
Lemma getPreviousKey_bytewise ve k :
  getPreviousKey (bytewise_layer ve) (VArray k) = Ok (VArray (adjacent_items _getPreviousKey k)).
Proof. reflexivity. Qed.
Lemma getNextKey_bytewise ve k :
  getNextKey (bytewise_layer ve) (VArray k) = Ok (VArray (adjacent_items _getNextKey k)).
Proof. reflexivity. Qed.
Lemma concatKeys_bytewise ve a b :
  concatKeys (bytewise_layer ve) (VArray a) (VArray b) = Ok (VArray (a ++ b)).
Proof. reflexivity. Qed.

(** Lookups in a config after an assignment or a [delete], at the type of
    configs. *)
Lemma config_insert_eq (o : config) (i : string) (v : val) :
  <[i := v]> o !! i = Some v.
Proof. apply lookup_insert_eq. Qed.
Lemma config_insert_ne (o : config) (i j : string) (v : val) :
  i <> j -> <[i := v]> o !! j = o !! j.
Proof. apply lookup_insert_ne. Qed.
Lemma config_delete_eq (o : config) (i : string) : delete i o !! i = None.
Proof. apply lookup_delete_eq. Qed.
Lemma config_delete_ne (o : config) (i j : string) :
  i <> j -> delete i o !! j = o !! j.
Proof. apply lookup_delete_ne. Qed.

(** Reads of a field, through the assignments and deletions made so far,
    down to the config the call started from. *)
Ltac lookups :=
  repeat match goal with
    | |- context [<[?i := _]> _ !! ?i] => rewrite config_insert_eq
    | |- context [<[_ := _]> _ !! _] => rewrite config_insert_ne by discriminate
    | |- context [delete ?i _ !! ?i] => rewrite config_delete_eq
    | |- context [delete _ _ !! _] => rewrite config_delete_ne by discriminate
    end.

Lemma result_bind_ret {A} (m : result A) : m ≫= (fun a => Ok a) = m.
Proof. destruct m; reflexivity. Qed.

(** One step of the method on a config whose fields are known as far as
    they have been tested: a read is resolved, a key method returns, or a
    test on a field not seen yet splits the run. *)
Ltac run1 :=
  first
    [ progress lookups
    | match goal with
      | H : ?o !! ?n = _ |- context [?o !! ?n] => rewrite H
      | H : truthy _ = _ |- _ => rewrite H
      | |- context [normalizeKey _ _] => rewrite normalizeKey_bytewise
      | |- context [getEmptyKey _] => rewrite getEmptyKey_bytewise
      | |- context [getMaximumKey _] => rewrite getMaximumKey_bytewise
      | |- context [getPreviousKey _ _] => rewrite getPreviousKey_bytewise
      | |- context [getNextKey _ _] => rewrite getNextKey_bytewise
      | |- context [concatKeys _ _ _] => rewrite concatKeys_bytewise
      | |- context [truthy (default VUndefined (?o !! "reverse"%string))] =>
          is_var o; destruct (truthy (default VUndefined (o !! "reverse"%string))) eqn:?
      | |- context [bool_decide (is_Some (?o !! ?n))] =>
          is_var o; destruct (o !! n) eqn:?
      end
    | progress cbn [mbind result_bind bool_decide decide_rel is_Some_dec default
                    from_option id negb] ].

(** The whole method, block by block: the rest of the method is set aside
    while a block runs. *)
Ltac run :=
  repeat first
    [ lazymatch goal with
      | |- normalized _ (@mbind _ _ _ _ ?K ?B) =>
          tryif is_var K then fail else
            lazymatch K with
            | (fun a => Ok a) => rewrite result_bind_ret
            | _ => let k := fresh "k" in set (k := K)
            end
      end
    | lazymatch goal with
      | |- normalized _ (?k ?m) => is_var k; subst k; cbv beta
      end
    | run1 ].

Lemma not_resolved (f : string) :
  f ∉ resolved_names ->
  "start"%string <> f /\ "end"%string <> f /\ "startAfter"%string <> f /\
  "endBefore"%string <> f /\ "prefix"%string <> f.
Proof.
  intros Hf. repeat split; intros <-; apply Hf; unfold resolved_names; set_solver.
Qed.

(** At the end of a run: the outcome is read off the fields tested. *)
Ltac leaf :=
  unfold normalized, conflict, hasOwnProperty;
  repeat match goal with
         | H : ?o !! ?n = _ |- context [?o !! ?n] => rewrite H
         end;
  cbn [bool_decide decide_rel is_Some_dec andb orb];
  repeat match goal with
         | |- _ /\ _ => split
         | |- _ = _ => reflexivity
         | |- exists s e, _ => eexists _, _
         | |- _ !! _ = _ => lookups; first [reflexivity | assumption]
         | |- forall _, _ =>
             let f := fresh "f" in let Hf := fresh "Hf" in
             intros f Hf; destruct (not_resolved f Hf) as (? & ? & ? & ? & ?);
             repeat first [ rewrite config_insert_ne by assumption
                          | rewrite config_delete_ne by assumption ];
             reflexivity
         end.

(** With the bytewise key encoding, every config is normalised or
    rejected as [normalized] says. *)
Lemma normalize_spec ve (options : config) :
  normalized options (normalizeKeySelectors (bytewise_layer ve) options).
Proof.
  unfold normalizeKeySelectors, clone, hasOwnProperty, field.
  run; leaf.
Qed.



(** With another key encoding a config without conflict does not get
    through: the first key method called throws. *)
Lemma normalize_unimplemented_encoding :
  normalizeKeySelectors {| keyEncoding := "json"; valueEncoding := "json" |} ∅
  = Throw UnimplementedEncodingError.
Proof. reflexivity. Qed.

(** What is consumed: a returned object has no [startAfter], [endBefore]
    or [prefix], has arrays under [start] and [end], and agrees with the
    config on every field the normaliser does not resolve, [reverse] and
    [value] among them. *)
Lemma normalize_returns (valueEncoding : string) (options r : config) :
  normalizeKeySelectors (bytewise_layer valueEncoding) options = Ok r ->
  (exists s e, r !! "start" = Some (VArray s) /\ r !! "end" = Some (VArray e)) /\
  r !! "startAfter" = None /\ r !! "endBefore" = None /\ r !! "prefix" = None /\
  r !! "reverse" = options !! "reverse" /\ r !! "value" = options !! "value".
Proof.
  intros Hr. pose proof (normalize_spec valueEncoding options) as H.
  rewrite Hr in H. destruct H as (_ & Hse & Hsa & Heb & Hp & Hrest).
  repeat split; try assumption; apply Hrest; unfold resolved_names;
    intros Hin; repeat (apply elem_of_cons in Hin as [Hin|Hin]; [discriminate|]);
    now apply elem_of_nil in Hin.
Qed.

(** C6: the returned object holds only the resolved [start], [end] and
    [reverse]; [value], [startAfter], [endBefore] and [prefix] are gone.
    [startAfter], [endBefore] and [prefix] are deleted
    ([normalize_returns]); [value] is copied into [start] and [end] and
    never deleted: for [{value: 5}] the returned object still has it. *)
Theorem C6_value_stays_in_the_result (valueEncoding : string) :
  normalizeKeySelectors (bytewise_layer valueEncoding) (<["value" := VNumber 5]> ∅)
  = Ok (<["start" := VArray [VNumber 5]]>
          (<["end" := VArray [VNumber 5; VUndefined]]>
             (<["value" := VNumber 5]> ∅))) /\
  (<["start" := VArray [VNumber 5]]>
     (<["end" := VArray [VNumber 5; VUndefined]]>
        (<["value" := VNumber 5]> (∅ : config)))) !! "value"
  = Some (VNumber 5).
Proof. split; reflexivity. Qed.

(** ** The codecs' entry points *)

Section codec_properties.
Context `{Externals}.

Lemma encode_not_invalid_key (value : val) (encoding : string) :
  encode value encoding <> Throw InvalidKeyError.
Proof.
  unfold encode. repeat case_bool_decide; try discriminate.
  - destruct (bytewise_encode value); discriminate.
  - destruct value; try discriminate;
      destruct (JSON_stringify _); discriminate.
Qed.

Lemma decode_not_invalid_key (value : val) (encoding : string) :
  decode value encoding <> Throw InvalidKeyError.
Proof.
  unfold decode. repeat case_bool_decide; try discriminate.
  - destruct (bytewise_decode value); discriminate.
  - destruct (JSON_parse value); discriminate.
Qed.

(** The guard [if (!key)] rejects the falsy keys, and nothing else
    raises this error. *)
Lemma encodeKey_invalid_iff (this : AbstractStoreLayer) (key : val) :
  encodeKey this key = Throw InvalidKeyError <-> truthy key = false.
Proof.
  unfold encodeKey. destruct (truthy key); simpl.
  - split; [|discriminate]. intros He. now apply encode_not_invalid_key in He.
  - split; reflexivity.
Qed.

Lemma decodeKey_invalid_iff (this : AbstractStoreLayer) (key : val) :
  decodeKey this key = Throw InvalidKeyError <-> truthy key = false.
Proof.
  unfold decodeKey. destruct (truthy key); simpl.
  - split; [|discriminate]. intros He. now apply decode_not_invalid_key in He.
  - split; reflexivity.
Qed.

(** An empty, null or undefined key is falsy, and so is rejected. *)
Lemma absent_key_falsy (key : val) : absent_key key = true -> truthy key = false.
Proof. destruct key as [| | | |[|]| |]; simpl; congruence. Qed.

(** C9: [encodeKey] and [decodeKey] raise [InvalidKeyError] if and only
    if the key is empty, null or absent.  They raise it for those keys
    ([absent_key_falsy]), and for no truthy key
    ([encodeKey_invalid_iff]); but the guard is [!key], and the number 0
    is a present, non-empty key that it rejects with the message
    ['Undefined, null or empty key']. *)
Theorem C9_the_key_zero_is_rejected (this : AbstractStoreLayer) :
  absent_key (VNumber 0) = false /\
  encodeKey this (VNumber 0) = Throw InvalidKeyError /\
  decodeKey this (VNumber 0) = Throw InvalidKeyError.
Proof. repeat split. Qed.



End codec_properties.



(** ** The object store: what a call writes *)

Module StoreFacts.
Import Store.

Lemma frames_ret h0 {A} (a : A) (P : A -> Prop) : P a -> frames h0 (mret a) P.
Proof. intros Ha h Hh. split; assumption. Qed.

Lemma frames_throw h0 {A} (e : error) (P : A -> Prop) : frames h0 (throw e) P.
Proof. intros h Hh. split; [assumption | exact I]. Qed.

Lemma frames_bind h0 {A B} (m : M A) (f : A -> M B) (P : A -> Prop) (Q : B -> Prop) :
  frames h0 m P -> (forall a, P a -> frames h0 (f a) Q) -> frames h0 (m ≫= f) Q.
Proof.
  intros Hm Hf h Hh. specialize (Hm h Hh).
  unfold mbind, M_bind. destruct (m h) as [[a|e] h']; simpl in *.
  - destruct Hm as [Hh' Ha]. exact (Hf a Ha h' Hh').
  - destruct Hm as [Hh' _]. split; [assumption | exact I].
Qed.

Lemma frames_weaken h0 {A} (m : M A) (P Q : A -> Prop) :
  frames h0 m P -> (forall a, P a -> Q a) -> frames h0 m Q.
Proof.
  intros Hm HPQ h Hh. destruct (Hm h Hh) as [Hh' Ha]. split; [assumption|].
  destruct (m h).1; [now apply HPQ | exact I].
Qed.

Lemma subseteq_fresh (h0 h : store) : h0 ⊆ h -> h0 !! fresh (dom h) = None.
Proof.
  intros Hh. apply not_elem_of_dom. intros Hin.
  apply (is_fresh (dom h)). revert Hin. apply subseteq_dom in Hh. apply Hh.
Qed.

Lemma frames_alloc h0 (o : object) : frames h0 (alloc o) (new_ref h0).
Proof.
  intros h Hh. pose proof (subseteq_fresh h0 h Hh) as Hfresh. split; simpl.
  - now apply insert_subseteq_r.
  - exists (fresh (dom h)). split; [reflexivity | assumption].
Qed.

Lemma frames_read h0 (l : loc) : frames h0 (read l) (fun _ => True).
Proof. intros h Hh. unfold read. destruct (h !! l); split; simpl; auto. Qed.

Lemma frames_write h0 (l : loc) (o : object) :
  h0 !! l = None -> frames h0 (write l o) (fun _ => True).
Proof. intros Hl h Hh. split; simpl; [now apply insert_subseteq_r | exact I]. Qed.

Lemma safe_frames h0 {A} (m : M A) (P : A -> Prop) : frames h0 m P -> safe h0 m.
Proof. intros Hm. apply (frames_weaken h0 m P); auto. Qed.

Lemma safe_ret h0 {A} (a : A) : safe h0 (mret a).
Proof. now apply frames_ret. Qed.

Lemma safe_throw h0 {A} (e : error) : safe h0 (throw e : M A).
Proof. apply frames_throw. Qed.

Lemma safe_bind h0 {A B} (m : M A) (f : A -> M B) :
  safe h0 m -> (forall a, safe h0 (f a)) -> safe h0 (m ≫= f).
Proof.
  intros Hm Hf. apply (frames_bind h0 m f (fun _ => True)); [exact Hm|].
  intros a _. apply Hf.
Qed.

Lemma safe_if h0 {A} (c : bool) (m1 m2 : M A) :
  safe h0 m1 -> safe h0 m2 -> safe h0 (if c then m1 else m2).
Proof. now destruct c. Qed.

Lemma safe_when h0 (c : bool) (body : M unit) :
  safe h0 body -> safe h0 (when c body).
Proof. intros Hb. destruct c; [exact Hb | apply safe_ret]. Qed.

Lemma safe_alloc h0 (o : object) : safe h0 (alloc o).
Proof. exact (safe_frames h0 _ _ (frames_alloc h0 o)). Qed.

Create HintDb store_safe.
#[local] Hint Resolve safe_ret safe_throw safe_alloc frames_read frames_write
  safe_if safe_when : store_safe.

Ltac safe_steps :=
  repeat first
    [ solve [eauto 2 with store_safe]
    | apply safe_bind; [|intros ?]
    | apply safe_when
    | apply safe_if
    | match goal with
      | |- safe _ (match ?x with _ => _ end) => destruct x
      end ].

Lemma safe_read h0 (l : loc) : safe h0 (read l).
Proof. apply frames_read. Qed.

Lemma safe_write h0 (l : loc) (o : object) : h0 !! l = None -> safe h0 (write l o).
Proof. apply frames_write. Qed.
#[local] Hint Resolve safe_read safe_write : store_safe.

Lemma safe_isArray h0 (v : value) : safe h0 (isArray v).
Proof. unfold isArray. destruct v; safe_steps. Qed.

Lemma safe_fields_of h0 (l : loc) : safe h0 (fields_of l).
Proof. unfold fields_of. safe_steps. Qed.
#[local] Hint Resolve safe_isArray safe_fields_of : store_safe.

Lemma safe_hasOwnProperty h0 (l : loc) (name : string) : safe h0 (hasOwnProperty l name).
Proof. unfold hasOwnProperty. safe_steps. Qed.

Lemma safe_get h0 (l : loc) (name : string) : safe h0 (get l name).
Proof. unfold get. safe_steps. Qed.

Lemma safe_set h0 (l : loc) (name : string) (v : value) :
  h0 !! l = None -> safe h0 (set l name v).
Proof. intros Hl. unfold set. safe_steps. Qed.

Lemma safe_delete_field h0 (l : loc) (name : string) :
  h0 !! l = None -> safe h0 (delete_field l name).
Proof. intros Hl. unfold delete_field. safe_steps. Qed.
#[local] Hint Resolve safe_hasOwnProperty safe_get safe_set safe_delete_field
  : store_safe.

(** [clone] returns a primitive or a new object. *)
Lemma frames_clone h0 (v : value) : frames h0 (clone v) (new_or_primitive h0).
Proof.
  destruct v; try (apply frames_ret; exact I).
  unfold clone. eapply frames_bind; [apply frames_read|]. intros o _.
  eapply frames_weaken; [apply frames_alloc|].
  intros a (l' & -> & Hl'). exact Hl'.
Qed.

(** [pop] and [push] write the array they are called on. *)
Lemma safe_adjacent h0 (f : value -> value) (keys : value) :
  new_or_primitive h0 keys -> safe h0 (adjacent f keys).
Proof.
  intros Hkeys. unfold adjacent. destruct keys as [| | | |s|l]; simpl in Hkeys.
  1-4: safe_steps.
  - destruct s; safe_steps.
  - safe_steps.
Qed.

Lemma safe_getPreviousKey h0 this (key : value) : safe h0 (getPreviousKey this key).
Proof.
  unfold getPreviousKey. apply safe_if; [apply safe_throw|].
  eapply frames_bind; [apply frames_clone|].
  intros keys Hkeys. now apply safe_adjacent.
Qed.

Lemma safe_getNextKey h0 this (key : value) : safe h0 (getNextKey this key).
Proof.
  unfold getNextKey. apply safe_if; [apply safe_throw|].
  eapply frames_bind; [apply frames_clone|].
  intros keys Hkeys. now apply safe_adjacent.
Qed.

Lemma safe_getEmptyKey h0 this : safe h0 (getEmptyKey this).
Proof. unfold getEmptyKey. safe_steps. Qed.

Lemma safe_getMaximumKey h0 this : safe h0 (getMaximumKey this).
Proof. unfold getMaximumKey. safe_steps. Qed.

Lemma safe_normalizeKey h0 this (key : value) : safe h0 (normalizeKey this key).
Proof. unfold normalizeKey. safe_steps. Qed.

Lemma safe_concatKeys h0 this (key1 key2 : value) : safe h0 (concatKeys this key1 key2).
Proof. unfold concatKeys, Array_concat. safe_steps. Qed.
#[local] Hint Resolve safe_getPreviousKey safe_getNextKey safe_getEmptyKey
  safe_getMaximumKey safe_normalizeKey safe_concatKeys : store_safe.




(** A run: [{startAfter: ['m'], reverse: true}].  The call returns a new
    object at 3; the config at 2 and its array at 1 are as before; the
    bounds are new arrays. *)
Example run_startAfter_reverse :
  let r := normalizeKeySelectors (bytewise_layer "json") (Ref 2%positive)
             store_startAfter in
  r.1 = Ok (Ref 3%positive) /\
  r.2 !! 1%positive = store_startAfter !! 1%positive /\
  r.2 !! 2%positive = store_startAfter !! 2%positive /\
  r.2 !! 3%positive
  = Some (Plain (<["start" := Ref 7%positive]>
                   (<["end" := Ref 6%positive]> (<["reverse" := Bool true]> ∅)))) /\
  r.2 !! 7%positive = Some (Array []) /\
  r.2 !! 6%positive = Some (Array [String (js "l" ++ [65535]); Undefined]).
Proof. vm_compute. repeat split. Qed.

(** The returned object is new, its fields need not be: for
    [{start: <1>}] the returned [start] is the caller's array itself,
    which [normalizeKey] hands back as it is. *)
Example run_start_is_shared :
  let r := normalizeKeySelectors (bytewise_layer "json") (Ref 2%positive)
             store_start in
  r.1 = Ok (Ref 3%positive) /\
  r.2 !! 3%positive
  = Some (Plain (<["start" := Ref 1%positive]> (<["end" := Ref 6%positive]> ∅))).
Proof. vm_compute. split; reflexivity. Qed.
End StoreFacts.

(** ** The two models agree

    The methods on plain values and the methods over the object store
    are two readings of the same source.  When the option object passed to
    the second stands for the config passed to the first, both throw the
    same error or both return, and the returned object stands for the
    returned config. *)

Module StoreAgreement.
Import Store(loc, value(..), object(..), store, M, M_ret, M_bind, alloc, read,
             write, throw, when,
             as_plain, fields_of, isArray, get, set, delete_field,
             rep, rep_field, rep_fields, rep_config, keeps_keys, agree,
             rep_result, same_outcome, at_config).

Lemma rep_array h v xs :
  rep h v (VArray xs) <->
  exists l items, v = Ref l /\ h !! l = Some (Array items) /\ Forall2 (rep h) items xs.
Proof.
  unfold rep; fold rep. split; intros (l & items & Hv & Hl & Hall); exists l, items;
    (split; [exact Hv|]; split; [exact Hl|]); clear Hl.
  - revert items Hall. induction xs as [|x xs IH]; intros [|i items] Hall;
      try contradiction; constructor; [apply Hall | apply IH, Hall].
  - induction Hall; [exact I | split; assumption].
Qed.

Lemma subseteq_keeps_keys (h h' : store) : h ⊆ h' -> keeps_keys h h'.
Proof.
  intros Hsub l ob Hl. destruct ob; auto; eapply lookup_weaken; eauto.
Qed.

Lemma rep_keeps h h' : keeps_keys h h' -> forall x v, rep h v x -> rep h' v x.
Proof.
  intros Hk. fix IH 1. intros [| | | | |bs|xs] v; try (unfold rep; tauto).
  - unfold rep. intros (l & -> & Hl). exists l. split; [reflexivity|]. exact (Hk _ _ Hl).
  - rewrite !rep_array. intros (l & items & -> & Hl & Hall).
    exists l, items. split; [reflexivity|]. split; [exact (Hk _ _ Hl)|].
    clear Hl. revert items Hall. induction xs as [|x xs IHxs]; intros items Hall.
    + inversion Hall. constructor.
    + inversion Hall as [|i x' items' xs' Hix Hrest]; subst. constructor.
      * apply IH. exact Hix.
      * apply IHxs. exact Hrest.
Qed.

Lemma fresh_None (h : store) : h !! fresh (dom h) = None.
Proof. apply not_elem_of_dom, is_fresh. Qed.

Lemma alloc_subseteq (h : store) (o : object) : h ⊆ <[fresh (dom h) := o]> h.
Proof. apply insert_subseteq, fresh_None. Qed.

Lemma rep_subseteq (h h' : store) v x : h ⊆ h' -> rep h v x -> rep h' v x.
Proof. intros Hsub. apply rep_keeps, subseteq_keeps_keys, Hsub. Qed.

Lemma rep_not_array h v x :
  rep h v x -> (forall xs, x <> VArray xs) ->
  isArray v h = (Ok false, h).
Proof.
  intros Hrep Hx. destruct x; unfold rep in Hrep; subst; try reflexivity.
  - destruct Hrep as (l & -> & Hl). unfold isArray, mbind, M_bind, read.
    now rewrite Hl.
  - now destruct (Hx items).
Qed.

Lemma agree_normalizeKey this h v x :
  rep h v x ->
  agree (⊆) rep h (normalizeKey this x) (Store.normalizeKey this v h).
Proof.
  intros Hrep. unfold normalizeKey, Store.normalizeKey.
  destruct (is_bytewise this); simpl; [|split; reflexivity].
  assert (forall y, (forall xs, y <> VArray xs) -> rep h v y ->
            agree (⊆) rep h (Ok (VArray [y]))
              ((isArray v ≫= fun b => if negb b then alloc (Array [v]) else mret v) h))
    as Hscalar.
  { intros y Hy Hv. unfold mbind, M_bind at 1. rewrite (rep_not_array h v y Hv Hy).
    simpl. split; [apply alloc_subseteq|].
    apply rep_array. exists (fresh (dom h)), [v].
    split; [reflexivity|]. split; [apply lookup_insert_eq|].
    constructor; [|constructor].
    exact (rep_subseteq _ _ _ _ (alloc_subseteq h _) Hv). }
  destruct x; try (apply Hscalar; [discriminate | exact Hrep]).
  pose proof Hrep as Hrep'. apply rep_array in Hrep' as (l & its & -> & Hl & Hall).
  unfold isArray, mbind, M_bind, read. rewrite Hl. simpl.
  split; [reflexivity | exact Hrep].
Qed.

Lemma rep_alloc_array (h : store) (items : list value) (xs : list val) :
  Forall2 (rep h) items xs ->
  agree (⊆) rep h (Ok (VArray xs)) (alloc (Array items) h).
Proof.
  intros Hall. split; [apply alloc_subseteq|].
  apply rep_array. exists (fresh (dom h)), items.
  split; [reflexivity|]. split; [apply lookup_insert_eq|].
  eapply Forall2_impl; [exact Hall|].
  intros v x. apply rep_subseteq, alloc_subseteq.
Qed.

Lemma agree_getEmptyKey this h :
  agree (⊆) rep h (getEmptyKey this) (Store.getEmptyKey this h).
Proof.
  unfold getEmptyKey, Store.getEmptyKey.
  destruct (is_bytewise this); simpl; [|split; reflexivity].
  apply rep_alloc_array. constructor.
Qed.

Lemma agree_getMaximumKey this h :
  agree (⊆) rep h (getMaximumKey this) (Store.getMaximumKey this h).
Proof.
  unfold getMaximumKey, Store.getMaximumKey.
  destruct (is_bytewise this); simpl; [|split; reflexivity].
  apply rep_alloc_array. repeat constructor.
Qed.

Lemma agree_concatKeys this h v1 v2 x1 x2 :
  rep h v1 x1 -> rep h v2 x2 ->
  agree (⊆) rep h (concatKeys this x1 x2) (Store.concatKeys this v1 v2 h).
Proof.
  intros H1 H2. unfold concatKeys, Store.concatKeys.
  destruct (is_bytewise this); simpl; [|split; reflexivity].
  unfold Array_concat, Store.Array_concat.
  destruct x1 as [| | | | |bs1|xs1]; unfold rep in H1; fold rep in H1; subst;
    try (split; reflexivity).
  - destruct H1 as (l1 & -> & Hl1). unfold mbind, M_bind, read. rewrite Hl1.
    split; reflexivity.
  - apply rep_array in H1 as (l1 & its1 & -> & Hl1 & Hall1).
    unfold mbind, M_bind at 1. unfold read at 1. rewrite Hl1.
    assert (forall y, (forall xs, y <> VArray xs) -> rep h v2 y ->
              agree (⊆) rep h (Ok (VArray (xs1 ++ [y])))
                (alloc (Array (its1 ++ [v2])) h)) as Hscalar.
    { intros y _ Hy. apply rep_alloc_array. apply Forall2_app; [exact Hall1|].
      constructor; [exact Hy | constructor]. }
    destruct x2 as [| | | | |bs2|xs2].
    1-5: unfold rep in H2; subst; apply Hscalar; [discriminate | reflexivity].
    + pose proof H2 as H2'. unfold rep in H2'. destruct H2' as (l2 & -> & Hl2).
      unfold mbind, M_bind, read. rewrite Hl2.
      apply Hscalar; [discriminate | exact H2].
    + apply rep_array in H2 as (l2 & its2 & -> & Hl2 & Hall2).
      unfold mbind, M_bind, read. rewrite Hl2.
      apply rep_alloc_array. now apply Forall2_app.
Qed.

Lemma rep_getPreviousKey h k x :
  rep h k x -> rep h (Store._getPreviousKey k) (_getPreviousKey x).
Proof.
  destruct x; unfold rep; fold rep; intros Hk; subst; try reflexivity.
  - destruct Hk as (l & -> & Hl). exists l. split; [reflexivity | exact Hl].
  - destruct Hk as (l & its & -> & Hrest). exists l, its. split; [reflexivity | exact Hrest].
Qed.

Lemma rep_getNextKey h k x :
  rep h k x -> rep h (Store._getNextKey k) (_getNextKey x).
Proof.
  destruct x; unfold rep; fold rep; intros Hk; subst; try reflexivity.
  - destruct Hk as (l & -> & Hl). exists l. split; [reflexivity | exact Hl].
  - destruct Hk as (l & its & -> & Hrest). exists l, its. split; [reflexivity | exact Hrest].
Qed.

Ltac store_eval :=
  repeat (progress (unfold mbind, M_bind, read, write, alloc, Store.clone, throw,
                      mret, M_ret; simpl; rewrite ?lookup_insert_eq)).

(** [clone] then [pop] and [push] on the clone. *)
Lemma agree_adjacent (f : value -> value) (g : val -> val) h v x :
  (forall h k y, rep h k y -> rep h (f k) (g y)) ->
  rep h v x ->
  agree (⊆) rep h (adjacent g x) ((Store.clone v ≫= Store.adjacent f) h).
Proof.
  intros Hfg Hv. destruct x as [| | | |s|bs|xs]; unfold rep in Hv; fold rep in Hv; subst;
    try (split; reflexivity).
  - destruct s; split; reflexivity.
  - destruct Hv as (l & -> & Hl).
    unfold Store.clone, mbind, M_bind, read. rewrite Hl. store_eval.
    destruct bs; simpl.
    + split; [apply alloc_subseteq|]. exists (fresh (dom h)).
      split; [reflexivity | apply lookup_insert_eq].
    + split; [reflexivity | apply alloc_subseteq].
  - apply rep_array in Hv as (l & its & -> & Hl & Hall).
    unfold Store.clone, mbind, M_bind, read. rewrite Hl. store_eval.
    unfold adjacent_items.
    destruct (last its) as [k|] eqn:Hlast.
    + apply last_Some in Hlast as [front ->].
      apply Forall2_app_inv_l in Hall as (xs1 & xs2 & Hfront & Hk & ->).
      inversion Hk as [|k' y ? ? Hky Hnil]; subst. inversion Hnil; subst.
      rewrite last_snoc, !removelast_last. store_eval. rewrite !insert_insert_eq.
      split; [apply alloc_subseteq|].
      apply rep_array. exists (fresh (dom h)), (front ++ [f k]).
      split; [reflexivity|]. split; [apply lookup_insert_eq|].
      apply Forall2_app.
      * eapply Forall2_impl; [exact Hfront|].
        intros ? ?. apply rep_subseteq, alloc_subseteq.
      * constructor; [|constructor]. apply Hfg.
        revert Hky. apply rep_subseteq, alloc_subseteq.
    + apply last_None in Hlast. subst its. inversion Hall; subst. simpl.
      split; [apply alloc_subseteq|].
      apply rep_array. exists (fresh (dom h)), [].
      split; [reflexivity|]. split; [apply lookup_insert_eq | constructor].
Qed.

Lemma agree_getPreviousKey this h v x :
  rep h v x ->
  agree (⊆) rep h (getPreviousKey this x) (Store.getPreviousKey this v h).
Proof.
  intros Hv. unfold getPreviousKey, Store.getPreviousKey.
  destruct (is_bytewise this); simpl; [|split; reflexivity].
  apply agree_adjacent; [apply rep_getPreviousKey | exact Hv].
Qed.

Lemma agree_getNextKey this h v x :
  rep h v x ->
  agree (⊆) rep h (getNextKey this x) (Store.getNextKey this v h).
Proof.
  intros Hv. unfold getNextKey, Store.getNextKey.
  destruct (is_bytewise this); simpl; [|split; reflexivity].
  apply agree_adjacent; [apply rep_getNextKey | exact Hv].
Qed.

Lemma rep_fields_keeps h h' f c :
  keeps_keys h h' -> rep_fields h f c -> rep_fields h' f c.
Proof.
  intros Hk Hf n. specialize (Hf n). unfold rep_field in *.
  destruct (f !! n), (c !! n); auto. eapply rep_keeps; eauto.
Qed.

Lemma rep_fields_insert h f c n v x :
  rep_fields h f c -> rep h v x -> rep_fields h (<[n := v]> f) (<[n := x]> c).
Proof.
  intros Hf Hv m. destruct (decide (n = m)) as [->|Hne].
  - rewrite !lookup_insert_eq. exact Hv.
  - rewrite !lookup_insert_ne by assumption. apply Hf.
Qed.

Lemma rep_fields_delete h f c n :
  rep_fields h f c -> rep_fields h (delete n f) (delete n c).
Proof.
  intros Hf m. destruct (decide (n = m)) as [->|Hne].
  - rewrite !lookup_delete_eq. exact I.
  - rewrite !lookup_delete_ne by assumption. apply Hf.
Qed.

Lemma rep_fields_has h f c n :
  rep_fields h f c ->
  bool_decide (is_Some (f !! n)) = hasOwnProperty c n.
Proof.
  intros Hf. specialize (Hf n). unfold hasOwnProperty, rep_field in *.
  destruct (f !! n), (c !! n); try contradiction; reflexivity.
Qed.

Lemma rep_fields_get h f c n :
  rep_fields h f c -> rep h (default Undefined (f !! n)) (field c n).
Proof.
  intros Hf. specialize (Hf n). unfold field, rep_field in *.
  destruct (f !! n), (c !! n); try contradiction; [exact Hf | reflexivity].
Qed.

Lemma keeps_keys_write h o f f' :
  h !! o = Some (Plain f) -> keeps_keys h (<[o := Plain f']> h).
Proof.
  intros Ho l ob Hl. destruct (decide (o = l)) as [->|Hne].
  - rewrite Ho in Hl. inversion Hl. exact I.
  - destruct ob; auto; now rewrite lookup_insert_ne.
Qed.

Lemma eval_hasOwnProperty {A} h o f c n (k : bool -> M A) :
  at_config h o f c ->
  (Store.hasOwnProperty o n ≫= k) h = k (hasOwnProperty c n) h.
Proof.
  intros [Ho Hf]. unfold Store.hasOwnProperty, fields_of, mbind, M_bind, read.
  rewrite Ho. simpl. now rewrite (rep_fields_has h f c n Hf).
Qed.

Lemma eval_get {A} h o f c n (k : value -> M A) :
  at_config h o f c ->
  (get o n ≫= k) h = k (default Undefined (f !! n)) h.
Proof.
  intros [Ho Hf]. unfold get, fields_of, mbind, M_bind, read.
  now rewrite Ho.
Qed.

Lemma eval_set {A} h o f c n v (k : unit -> M A) :
  at_config h o f c ->
  (set o n v ≫= k) h = k tt (<[o := Plain (<[n := v]> f)]> h).
Proof.
  intros [Ho Hf]. unfold set, fields_of, write, mbind, M_bind, read.
  now rewrite Ho.
Qed.

Lemma at_config_set h o f c n v x :
  at_config h o f c -> rep h v x ->
  at_config (<[o := Plain (<[n := v]> f)]> h) o (<[n := v]> f) (<[n := x]> c).
Proof.
  intros [Ho Hf] Hv. split; [apply lookup_insert_eq|].
  apply rep_fields_insert.
  - eapply rep_fields_keeps; [|exact Hf]. eapply keeps_keys_write; eauto.
  - eapply rep_keeps; [|exact Hv]. eapply keeps_keys_write; eauto.
Qed.

Lemma at_config_delete h o f c n :
  at_config h o f c ->
  at_config (<[o := Plain (delete n f)]> h) o (delete n f) (delete n c).
Proof.
  intros [Ho Hf]. split; [apply lookup_insert_eq|].
  apply rep_fields_delete.
  eapply rep_fields_keeps; [|exact Hf]. eapply keeps_keys_write; eauto.
Qed.

Lemma at_config_subseteq h h' o f c :
  h ⊆ h' -> at_config h o f c -> at_config h' o f c.
Proof.
  intros Hsub [Ho Hf]. split; [eapply lookup_weaken; eauto|].
  eapply rep_fields_keeps; [|exact Hf]. now apply subseteq_keeps_keys.
Qed.

Lemma bind_assoc_eval {A B C} (m : M A) (f : A -> M B) (g : B -> M C) (h : store) :
  ((m ≫= f) ≫= g) h = (m ≫= fun a => f a ≫= g) h.
Proof. unfold mbind, M_bind. destruct (m h) as [[a|e] h']; reflexivity. Qed.

Lemma when_true_eval {A} (body : M unit) (k : unit -> M A) (h : store) :
  (when true body ≫= k) h = (body ≫= k) h.
Proof. reflexivity. Qed.

Lemma when_false_eval {A} (body : M unit) (k : unit -> M A) (h : store) :
  (when false body ≫= k) h = k tt h.
Proof. reflexivity. Qed.

Lemma throw_eval {A B} (e : error) (k : A -> M B) (h : store) :
  (throw e ≫= k) h = (Throw e, h).
Proof. reflexivity. Qed.

Lemma eval_read {A} h l ob (k : object -> M A) :
  h !! l = Some ob -> (read l ≫= k) h = k ob h.
Proof. intros Hl. unfold mbind, M_bind, read. now rewrite Hl. Qed.

Lemma eval_alloc {A} h ob (k : value -> M A) :
  (alloc ob ≫= k) h = k (Ref (fresh (dom h))) (<[fresh (dom h) := ob]> h).
Proof. reflexivity. Qed.

Lemma eval_as_plain {A} h o f (k : loc -> M A) :
  h !! o = Some (Plain f) -> (as_plain (Ref o) ≫= k) h = k o h.
Proof. intros Ho. unfold as_plain, mbind, M_bind, read. now rewrite Ho. Qed.

Lemma eval_bind {A B} (m : M A) (k : A -> M B) (h : store) :
  (m ≫= k) h = match m h with
               | (Ok a, h') => k a h'
               | (Throw e, h') => (Throw e, h')
               end.
Proof. reflexivity. Qed.

Lemma eval_ret {A B} (a : A) (k : A -> M B) (h : store) : (mret a ≫= k) h = k a h.
Proof. reflexivity. Qed.

Lemma rep_truthy h v x : rep h v x -> Store.truthy v = truthy x.
Proof.
  destruct x; unfold rep; fold rep; intros Hv; subst; try reflexivity.
  - destruct Hv as (l & -> & _). reflexivity.
  - destruct Hv as (l & its & -> & _). reflexivity.
Qed.

Lemma result_bind_ok {A B} (a : A) (k : A -> result B) : Ok a ≫= k = k a.
Proof. reflexivity. Qed.

Lemma same_outcome_throw (e : error) (h : store) :
  same_outcome (Throw e) (Throw e, h).
Proof. split; [reflexivity | exact I]. Qed.

(** Moving the facts of a state to a later store. *)
Ltac to_later_store g g' Hkeeps :=
  repeat match goal with
         | H : rep g _ _ |- _ => apply (rep_keeps g g' Hkeeps) in H
         end.

(** One operation of the store model, followed on both sides. *)
Ltac key_op lem :=
  lazymatch goal with
  | |- same_outcome _ ((?op ≫= ?k) ?g) =>
      let Hag := fresh "Hag" in
      pose proof lem as Hag;
      rewrite (eval_bind op k g);
      lazymatch type of Hag with
      | agree _ _ _ ?p _ =>
          let g' := fresh "g" in
          let Hsub := fresh "Hsub" in
          destruct p as [?|?], (op g) as [[?|?] g'];
          simpl in Hag; try contradiction;
          [ destruct Hag as [Hsub Hag];
            to_later_store g g' (subseteq_keeps_keys g g' Hsub);
            match goal with
            | Hat : at_config g _ _ _ |- _ =>
                apply (at_config_subseteq g g' _ _ _ Hsub) in Hat
            end;
            clear Hsub; cbn [mbind result_bind]
          | destruct Hag as [-> _]; cbn [mbind result_bind];
            apply same_outcome_throw ]
      end
  end.

(** A condition of the store model is the condition of the other model. *)
Ltac decide_cond b :=
  lazymatch b with
  | context [hasOwnProperty ?c ?n] =>
      destruct (hasOwnProperty c n) eqn:?
  | context [truthy ?x] => destruct (truthy x) eqn:?
  | context [Store.truthy ?v] =>
      match goal with
      | H : rep _ v ?x |- _ => rewrite (rep_truthy _ v x H)
      end
  end; cbn [negb].

(** One step along a path of a block: the next operation of the store
    model is evaluated in the current state, the method on values
    follows. *)
Ltac path_step :=
  lazymatch goal with
  | |- same_outcome (Ok _ ≫= _) _ => rewrite result_bind_ok
  | |- same_outcome _ (((_ ≫= _) ≫= _) _) => rewrite bind_assoc_eval
  | |- same_outcome _ ((mret _ ≫= _) _) => rewrite eval_ret; cbv beta
  | |- same_outcome _ ((throw _ ≫= _) _) =>
      rewrite throw_eval; cbn [mbind result_bind]; apply same_outcome_throw
  | |- same_outcome _ ((when true _ ≫= _) _) => rewrite when_true_eval
  | |- same_outcome _ ((when false _ ≫= _) _) => rewrite when_false_eval; cbv beta
  | |- same_outcome _ ((when (negb true) _ ≫= _) _) => rewrite when_false_eval; cbv beta
  | |- same_outcome _ ((when (negb false) _ ≫= _) _) => rewrite when_true_eval
  | |- same_outcome _ ((when ?b _ ≫= _) _) => decide_cond b
  | |- same_outcome _ (((if ?b then _ else _) ≫= _) _) => decide_cond b
  | Hat : at_config ?g ?o ?f ?c |- same_outcome _ ((Store.hasOwnProperty ?o ?n ≫= ?k) ?g) =>
      rewrite (eval_hasOwnProperty g o f c n k Hat); cbv beta
  | Hat : at_config ?g ?o ?f ?c |- same_outcome _ ((get ?o ?n ≫= ?k) ?g) =>
      rewrite (eval_get g o f c n k Hat); cbv beta;
      let Hv := fresh "Hv" in
      pose proof (rep_fields_get g f c n (proj2 Hat)) as Hv
  | Hat : at_config ?g ?o ?f ?c |- same_outcome _ ((set ?o ?n ?v ≫= ?k) ?g) =>
      rewrite (eval_set g o f c n v k Hat); cbv beta;
      let Hat' := fresh "Hat" in
      match goal with
      | Hv : rep g v ?x |- _ =>
          pose proof (at_config_set g o f c n v x Hat Hv) as Hat'
      end;
      to_later_store g (<[o := Plain (<[n := v]> f)]> g)
        (keeps_keys_write g o f (<[n := v]> f) (proj1 Hat));
      clear Hat
  | Hat : at_config ?g ?o ?f ?c |- same_outcome _ ((delete_field ?o ?n ≫= ?k) ?g) =>
      let Hat' := fresh "Hat" in
      pose proof (at_config_delete g o f c n Hat) as Hat';
      unfold delete_field at 1;
      rewrite bind_assoc_eval; unfold fields_of at 1; rewrite bind_assoc_eval;
      rewrite (eval_read g o _ _ (proj1 Hat)); cbv beta iota;
      rewrite eval_ret; cbv beta; rewrite eval_bind; unfold write at 1; cbv beta iota;
      to_later_store g (<[o := Plain (delete n f)]> g)
        (keeps_keys_write g o f (delete n f) (proj1 Hat));
      clear Hat
  | Hv : rep ?g ?v ?x |- same_outcome _ ((Store.normalizeKey ?this ?v ≫= _) ?g) =>
      key_op (agree_normalizeKey this g v x Hv)
  | Hv : rep ?g ?v ?x |- same_outcome _ ((Store.getPreviousKey ?this ?v ≫= _) ?g) =>
      key_op (agree_getPreviousKey this g v x Hv)
  | Hv : rep ?g ?v ?x |- same_outcome _ ((Store.getNextKey ?this ?v ≫= _) ?g) =>
      key_op (agree_getNextKey this g v x Hv)
  | |- same_outcome _ ((Store.getEmptyKey ?this ≫= _) ?g) =>
      key_op (agree_getEmptyKey this g)
  | |- same_outcome _ ((Store.getMaximumKey ?this ≫= _) ?g) =>
      key_op (agree_getMaximumKey this g)
  | H1 : rep ?g ?v1 ?x1, H2 : rep ?g ?v2 ?x2
    |- same_outcome _ ((Store.concatKeys ?this ?v1 ?v2 ≫= _) ?g) =>
      key_op (agree_concatKeys this g v1 v2 x1 x2 H1 H2)
  | |- same_outcome (?kp _) (?ks tt _) =>
      is_var kp; is_var ks;
      match goal with
      | Hrest : forall f c g, _ -> same_outcome _ _ |- _ => eapply Hrest; eassumption
      end
  end.

(** One [if] block of the source: its paths are followed to the end of
    the block, where the state is again an option object standing for a
    config; the rest of the method is proved once, for every such
    state. *)
Ltac block o :=
  let f := fresh "f" in
  let c := fresh "c" in
  let g := fresh "g" in
  let Hat := fresh "Hat" in
  intros f c g Hat;
  lazymatch goal with
  | |- same_outcome (@mbind _ _ _ _ ?Kp ?Bp)
         (@mbind _ _ _ _ (fun x => @mbind _ _ _ _ ?Ks (@?W x)) ?op ?g) =>
      let kp := fresh "kp" in
      let ks := fresh "ks" in
      let Hrest := fresh "Hrest" in
      set (kp := Kp) at 1; set (ks := Ks) at 1;
      enough (forall f c g, at_config g o f c -> same_outcome (kp c) (ks tt g))
        as Hrest;
      [ solve [repeat path_step]
      | clear f c g Hat; subst kp ks; cbv beta ]
  end.

(** The two readings of [normalizeKeySelectors] agree on every layer,
    store and config: called on an option object that stands for [c], the
    method over the store throws the error that the method on values
    throws on [c], or returns a new option object that stands for the
    config the method on values returns. *)
Theorem normalizeKeySelectors_agree this h l c :
  rep_config h l c ->
  same_outcome (normalizeKeySelectors this c)
               (Store.normalizeKeySelectors this (Ref l) h).
Proof.
  intros (f & Hl & Hf).
  unfold normalizeKeySelectors, Store.normalizeKeySelectors, clone.
  (* the clone and the option object behind it *)
  unfold Store.clone. rewrite bind_assoc_eval, (eval_read h l _ _ Hl), eval_alloc.
  set (o := fresh (dom h)).
  assert (at_config (<[o := Plain f]> h) o f c) as Hat.
  { split; [apply lookup_insert_eq|].
    eapply rep_fields_keeps; [|exact Hf].
    apply subseteq_keeps_keys, alloc_subseteq. }
  rewrite (eval_as_plain _ o f _ (proj1 Hat)).
  clearbody o. clear Hl Hf. revert Hat. generalize (<[o := Plain f]> h).
  clear h. revert f c.
  repeat block o.
  intros f c g [Ho Hf]. split; [exact I|].
  exists o. split; [reflexivity|]. exists f. split; assumption.
Qed.

(** The store of the example holds the selector
    [{startAfter: ['m'], reverse: true}] at 2. *)
Lemma store_startAfter_rep :
  rep_config Store.store_startAfter 2%positive startAfter_m_reverse.
Proof.
  eexists. split; [reflexivity|]. intros name.
  unfold startAfter_m_reverse, rep_field.
  rewrite !lookup_insert, !lookup_empty.
  repeat case_decide; try exact I; [|reflexivity].
  apply rep_array. exists 1%positive, [String (js "m")].
  repeat split. repeat constructor.
Qed.

(** Over the store as on values: on any store where the option object
    stands for [{startAfter: ['m'], reverse: true}], the call returns an
    object that stands for
    [{start: [], end: ['l\uFFFF', undefined], reverse: true}]. *)
Lemma store_startAfter_under_reverse (valueEncoding : string) h l :
  rep_config h l startAfter_m_reverse ->
  exists o h',
    Store.normalizeKeySelectors (bytewise_layer valueEncoding) (Ref l) h
    = (Ok (Ref o), h') /\
    rep_config h' o
      (<["start" := VArray []]>
         (<["end" := VArray [VString (js "l" ++ [65535]); VUndefined]]>
            (<["reverse" := VBool true]> ∅))).
Proof.
  intros Hrep.
  pose proof (normalizeKeySelectors_agree (bytewise_layer valueEncoding) h l _ Hrep)
    as Hag.
  unfold same_outcome, agree in Hag.
  change (normalizeKeySelectors (bytewise_layer valueEncoding) startAfter_m_reverse)
    with (Ok (<["start" := VArray []]>
                (<["end" := VArray [VString (js "l" ++ [65535]); VUndefined]]>
                   (<["reverse" := VBool true]> (∅ : config))))) in Hag.
  destruct (Store.normalizeKeySelectors _ _ h) as [[v|e] h']; [|contradiction].
  destruct Hag as (_ & o & -> & Ho). exists o, h'. split; [reflexivity | exact Ho].
Qed.
End StoreAgreement.

(** * Further properties of the methods *)

(** ** The bounds of every config *)

Ltac run_resolves :=
  repeat first
    [ lazymatch goal with
      | |- resolves _ (@mbind _ _ _ _ ?K ?B) =>
          tryif is_var K then fail else
            lazymatch K with
            | (fun a => Ok a) => rewrite result_bind_ret
            | _ => let k := fresh "k" in set (k := K)
            end
      end
    | lazymatch goal with
      | |- resolves _ (?k ?m) => is_var k; subst k; cbv beta
      end
    | run1 ].

(** Whenever the method returns, [start] and [end] hold the bounds that
    [resolved_bounds] reads off the config. *)
Lemma normalize_resolves ve (options : config) :
  resolves options (normalizeKeySelectors (bytewise_layer ve) options).
Proof.
  unfold normalizeKeySelectors, clone, hasOwnProperty, field.
  run_resolves.
  all: try exact I.
  all: unfold resolves, bounds, resolved_bounds, lower_bound, upper_bound,
         with_prefix, field; lookups.
  all: repeat match goal with
         | H : ?o !! ?n = _ |- context [?o !! ?n] => rewrite H
         | H : truthy _ = _ |- _ => rewrite H
         end.
  all: cbn [default from_option id]; rewrite <- ?app_assoc; reflexivity.
Qed.

Lemma normalize_bounds ve (options : config) :
  conflict options = false ->
  range_of (normalizeKeySelectors (bytewise_layer ve) options)
  = Some (resolved_bounds options).
Proof.
  intros Hc. pose proof (normalize_spec ve options) as Hn.
  pose proof (normalize_resolves ve options) as Hr.
  destruct (normalizeKeySelectors _ options) as [r|e]; simpl in *.
  - exact Hr.
  - destruct Hn as [_ Hn]. congruence.
Qed.

Lemma normalize_conflict ve (options : config) :
  conflict options = true ->
  normalizeKeySelectors (bytewise_layer ve) options = Throw InvalidSelectorError.
Proof.
  intros Hc. pose proof (normalize_spec ve options) as Hn.
  destruct (normalizeKeySelectors _ options) as [r|e]; simpl in *.
  - destruct Hn as [Hn _]. congruence.
  - destruct Hn as [-> _]. reflexivity.
Qed.

(** What a returned object holds, field by field. *)
Lemma normalize_fields ve (options r : config) :
  normalizeKeySelectors (bytewise_layer ve) options = Ok r ->
  exists s e,
    bounds r = Some (s, e) /\
    r !! "start" = Some (VArray s) /\ r !! "end" = Some (VArray e) /\
    r !! "startAfter" = None /\ r !! "endBefore" = None /\ r !! "prefix" = None /\
    r !! "reverse" = options !! "reverse" /\ r !! "value" = options !! "value".
Proof.
  intros Hr.
  destruct (normalize_returns ve options r Hr)
    as ((s & e & Hs & He) & Ha & Hb & Hp & Hrev & Hv).
  exists s, e. unfold bounds. rewrite Hs, He. repeat split; assumption.
Qed.


(** [hasOwnProperty] and [field] see a field that no assignment touched. *)
Lemma hasOwnProperty_lookup (o o' : config) (n : string) :
  o' !! n = o !! n -> hasOwnProperty o' n = hasOwnProperty o n.
Proof. unfold hasOwnProperty. now intros ->. Qed.

Lemma field_lookup (o o' : config) (n : string) :
  o' !! n = o !! n -> field o' n = field o n.
Proof. unfold field. now intros ->. Qed.

(** A config that supplies [startAfter] and has no conflict has neither
    [value] nor [start]; likewise for [endBefore]. *)
Lemma startAfter_alone (options : config) (a : val) :
  options !! "startAfter" = Some a -> conflict options = false ->
  options !! "value" = None /\ options !! "start" = None.
Proof.
  intros Ha Hc. unfold conflict, hasOwnProperty in Hc. rewrite Ha in Hc.
  destruct (options !! "value"), (options !! "start"), (options !! "end"),
    (options !! "endBefore"); try discriminate Hc; split; reflexivity.
Qed.

Lemma endBefore_alone (options : config) (b : val) :
  options !! "endBefore" = Some b -> conflict options = false ->
  options !! "value" = None /\ options !! "end" = None.
Proof.
  intros Hb Hc. unfold conflict, hasOwnProperty in Hc. rewrite Hb in Hc.
  destruct (options !! "value"), (options !! "start"), (options !! "end"),
    (options !! "startAfter"); try discriminate Hc; split; reflexivity.
Qed.

(** ** The order: every value compares equal to itself *)













(** ** Selectors: direction, prefix and value *)

Lemma put_eq (n : string) (v : option val) (o : config) : put n v o !! n = v.
Proof. destruct v; simpl; [apply lookup_insert_eq | apply lookup_delete_eq]. Qed.

Lemma put_ne (n m : string) (v : option val) (o : config) :
  n <> m -> put n v o !! m = o !! m.
Proof.
  intros Hn. destruct v; simpl; [now apply lookup_insert_ne | now apply lookup_delete_ne].
Qed.

Lemma exchange_l (a b : string) (o : config) : exchange a b o !! a = o !! b.
Proof. unfold exchange. apply put_eq. Qed.

Lemma exchange_r (a b : string) (o : config) : a <> b -> exchange a b o !! b = o !! a.
Proof. intros Hab. unfold exchange. rewrite put_ne by assumption. apply put_eq. Qed.

Lemma exchange_ne (a b n : string) (o : config) :
  a <> n -> b <> n -> exchange a b o !! n = o !! n.
Proof. intros Ha Hb. unfold exchange. now rewrite !put_ne. Qed.

(** The fields of the mirrored selector. *)
Lemma mirror_lookup (o : config) :
  mirror o !! "start" = o !! "end" /\
  mirror o !! "end" = o !! "start" /\
  mirror o !! "startAfter" = o !! "endBefore" /\
  mirror o !! "endBefore" = o !! "startAfter" /\
  mirror o !! "reverse" = None /\
  mirror o !! "value" = o !! "value" /\
  mirror o !! "prefix" = o !! "prefix".
Proof.
  unfold mirror.
  repeat split;
    repeat first
      [ rewrite exchange_l
      | rewrite exchange_r by discriminate
      | rewrite exchange_ne by discriminate
      | rewrite config_delete_eq
      | rewrite config_delete_ne by discriminate ];
    reflexivity.
Qed.

Lemma mirror_conflict (o : config) : conflict (mirror o) = conflict o.
Proof.
  destruct (mirror_lookup o) as (Hs & He & Ha & Hb & _ & Hv & _).
  unfold conflict, hasOwnProperty. rewrite Hs, He, Ha, Hb, Hv.
  repeat match goal with |- context [bool_decide ?P] => destruct (bool_decide P) end;
    reflexivity.
Qed.

(** X1: under [reverse] the method returns the bounds it returns, going
    forward, for the selector with [start] and [end] exchanged and
    [startAfter] and [endBefore] exchanged; both calls throw on the same
    configs. *)
Theorem reverse_is_the_mirrored_selector ve (options : config) :
  truthy (field options "reverse") = true ->
  range_of (normalizeKeySelectors (bytewise_layer ve) options)
  = range_of (normalizeKeySelectors (bytewise_layer ve) (mirror options)).
Proof.
  intros Hr. pose proof (mirror_conflict options) as Hm.
  destruct (conflict options) eqn:Hc.
  - now rewrite (normalize_conflict ve _ Hc), (normalize_conflict ve _ Hm).
  - rewrite (normalize_bounds ve _ Hc), (normalize_bounds ve _ Hm).
    destruct (mirror_lookup options) as (Hs & He & Ha & Hb & Hrev & Hv & Hp).
    unfold resolved_bounds, lower_bound, upper_bound, with_prefix, field.
    rewrite Hs, He, Ha, Hb, Hrev, Hv, Hp. unfold field in Hr. rewrite Hr.
    reflexivity.
Qed.

Lemma reverse_is_the_mirrored_selector_witness :
  truthy (field startAfter_m_reverse "reverse") = true /\
  range_of (normalizeKeySelectors (bytewise_layer "json") startAfter_m_reverse)
  = range_of (normalizeKeySelectors (bytewise_layer "json")
                (mirror startAfter_m_reverse)).
Proof.
  assert (truthy (field startAfter_m_reverse "reverse") = true) as H
    by reflexivity.
  split; [exact H|].
  exact (reverse_is_the_mirrored_selector "json" startAfter_m_reverse H).
Defined.

(** X2: a [prefix] is put in front of both bounds: the bounds of a config
    with a prefix are those of the config without it, each with the
    components of the prefix in front. *)
Theorem prefix_is_prepended ve (options : config) (p : val) :
  options !! "prefix" = Some p ->
  conflict options = false ->
  range_of (normalizeKeySelectors (bytewise_layer ve) options)
  = (fun '(start, end_) => (components p ++ start, components p ++ end_))
      <$> range_of (normalizeKeySelectors (bytewise_layer ve)
                      (delete "prefix" options)).
Proof.
  intros Hp Hc.
  assert (forall n, n <> "prefix"%string ->
            delete "prefix" options !! n = options !! n) as Hother.
  { intros n Hn. apply lookup_delete_ne. congruence. }
  assert (conflict (delete "prefix" options) = conflict options) as Hc'.
  { unfold conflict.
    rewrite !(hasOwnProperty_lookup options (delete "prefix" options))
      by (apply Hother; discriminate). reflexivity. }
  rewrite Hc in Hc'.
  rewrite (normalize_bounds ve options Hc), (normalize_bounds ve _ Hc').
  unfold resolved_bounds, lower_bound, upper_bound, with_prefix.
  rewrite !(field_lookup options (delete "prefix" options))
    by (apply Hother; discriminate).
  rewrite Hp, config_delete_eq. rewrite !config_delete_ne by discriminate.
  destruct (truthy (field options "reverse")); reflexivity.
Qed.

Lemma prefix_is_prepended_witness :
  prefix_a !! "prefix" = Some (VArray [VString (js "a")]) /\
  conflict prefix_a = false /\
  range_of (normalizeKeySelectors (bytewise_layer "json") prefix_a)
  = (fun '(start, end_) =>
       (components (VArray [VString (js "a")]) ++ start,
        components (VArray [VString (js "a")]) ++ end_))
      <$> range_of (normalizeKeySelectors (bytewise_layer "json")
                      (delete "prefix" prefix_a)).
Proof.
  assert (prefix_a !! "prefix" = Some (VArray [VString (js "a")])) as Hp
    by reflexivity.
  assert (conflict prefix_a = false) as Hc by reflexivity.
  split; [exact Hp|]. split; [exact Hc|].
  exact (prefix_is_prepended "json" prefix_a _ Hp Hc).
Defined.







(** ** Selectors: the exclusive boundaries *)





Lemma not_stepped (c : val) :
  stepped c = false -> _getPreviousKey c = c /\ _getNextKey c = c.
Proof.
  destruct c as [| | | |s| |]; simpl; try discriminate; try (split; reflexivity).
  intros Hs. apply negb_false_iff, bool_decide_eq_true in Hs. subst s.
  split; reflexivity.
Qed.

Lemma adjacent_items_not_stepped (f : val -> val) (k : key) :
  (forall c, last k = Some c -> f c = c) -> adjacent_items f k = k.
Proof.
  intros Hf. unfold adjacent_items. destruct (last k) as [c|] eqn:Hl; [|reflexivity].
  rewrite (Hf c eq_refl). apply last_Some in Hl as [front ->].
  now rewrite removelast_last.
Qed.

(** X8: when the last component of the [startAfter] key is neither a
    number nor a non-empty string (a boolean, null, undefined, a Buffer, a
    nested key, the empty string, or no component at all), the key has no
    neighbour and [startAfter] selects what [start] selects with the same
    key: the boundary is not exclusive. *)
Theorem startAfter_without_neighbour_is_start ve (options : config) (v : val) :
  options !! "startAfter" = Some v ->
  (forall c, last (components v) = Some c -> stepped c = false) ->
  conflict options = false ->
  range_of (normalizeKeySelectors (bytewise_layer ve) options)
  = range_of (normalizeKeySelectors (bytewise_layer ve)
                (<["start" := v]> (delete "startAfter" options))).
Proof.
  intros Ha Hv Hc.
  set (options' := <["start" := v]> (delete "startAfter" options)).
  assert (options' !! "start" = Some v) as Hs' by apply config_insert_eq.
  assert (options' !! "startAfter" = None) as Ha'.
  { unfold options'. rewrite config_insert_ne by discriminate. apply config_delete_eq. }
  assert (forall n, n <> "start"%string -> n <> "startAfter"%string ->
            options' !! n = options !! n) as Hother.
  { intros n H1 H2. unfold options'.
    rewrite config_insert_ne by congruence. now rewrite config_delete_ne by congruence. }
  destruct (startAfter_alone options v Ha Hc) as [Hval Hs].
  assert (conflict options' = false) as Hc'.
  { transitivity (conflict options); [|exact Hc]. unfold conflict, hasOwnProperty.
    rewrite Hs', Ha', Hs, Ha, !Hother by discriminate. rewrite Hval.
    reflexivity. }
  rewrite (normalize_bounds ve _ Hc), (normalize_bounds ve _ Hc').
  unfold resolved_bounds, lower_bound, upper_bound, with_prefix, field.
  rewrite Hs', Hs, Ha, !Hother by discriminate. rewrite Hval.
  destruct (truthy (default VUndefined (options !! "reverse")));
    [ rewrite (adjacent_items_not_stepped _getPreviousKey (components v))
    | rewrite (adjacent_items_not_stepped _getNextKey (components v)) ];
    try reflexivity; intros c Hl; apply not_stepped; now apply Hv.
Qed.

Lemma last_true_not_stepped (c : val) :
  last (components (VArray [VBool true])) = Some c -> stepped c = false.
Proof. intros [= <-]. reflexivity. Qed.

Lemma startAfter_without_neighbour_is_start_witness :
  startAfter_true !! "startAfter" = Some (VArray [VBool true]) /\
  conflict startAfter_true = false /\
  range_of (normalizeKeySelectors (bytewise_layer "json") startAfter_true)
  = range_of (normalizeKeySelectors (bytewise_layer "json")
                (<["start" := VArray [VBool true]]>
                   (delete "startAfter" startAfter_true))).
Proof.
  split; [reflexivity|]. split; [reflexivity|].
  exact (startAfter_without_neighbour_is_start "json" startAfter_true
           (VArray [VBool true]) eq_refl last_true_not_stepped eq_refl).
Defined.

(** X9: when the last component of the [endBefore] key is neither a
    number nor a non-empty string, [endBefore] selects what [end] selects
    with the same key: the boundary is not exclusive. *)
Theorem endBefore_without_neighbour_is_end ve (options : config) (v : val) :
  options !! "endBefore" = Some v ->
  (forall c, last (components v) = Some c -> stepped c = false) ->
  conflict options = false ->
  range_of (normalizeKeySelectors (bytewise_layer ve) options)
  = range_of (normalizeKeySelectors (bytewise_layer ve)
                (<["end" := v]> (delete "endBefore" options))).
Proof.
  intros Hb Hv Hc.
  set (options' := <["end" := v]> (delete "endBefore" options)).
  assert (options' !! "end" = Some v) as He' by apply config_insert_eq.
  assert (options' !! "endBefore" = None) as Hb'.
  { unfold options'. rewrite config_insert_ne by discriminate. apply config_delete_eq. }
  assert (forall n, n <> "end"%string -> n <> "endBefore"%string ->
            options' !! n = options !! n) as Hother.
  { intros n H1 H2. unfold options'.
    rewrite config_insert_ne by congruence. now rewrite config_delete_ne by congruence. }
  destruct (endBefore_alone options v Hb Hc) as [Hval He].
  assert (conflict options' = false) as Hc'.
  { transitivity (conflict options); [|exact Hc]. unfold conflict, hasOwnProperty.
    rewrite He', Hb', He, Hb, !Hother by discriminate. rewrite Hval.
    reflexivity. }
  rewrite (normalize_bounds ve _ Hc), (normalize_bounds ve _ Hc').
  unfold resolved_bounds, lower_bound, upper_bound, with_prefix, field.
  rewrite He', He, Hb, !Hother by discriminate. rewrite Hval.
  destruct (truthy (default VUndefined (options !! "reverse")));
    [ rewrite (adjacent_items_not_stepped _getNextKey (components v))
    | rewrite (adjacent_items_not_stepped _getPreviousKey (components v)) ];
    try reflexivity; intros c Hl; apply not_stepped; now apply Hv.
Qed.

Lemma endBefore_without_neighbour_is_end_witness :
  endBefore_true !! "endBefore" = Some (VArray [VBool true]) /\
  conflict endBefore_true = false /\
  range_of (normalizeKeySelectors (bytewise_layer "json") endBefore_true)
  = range_of (normalizeKeySelectors (bytewise_layer "json")
                (<["end" := VArray [VBool true]]>
                   (delete "endBefore" endBefore_true))).
Proof.
  split; [reflexivity|]. split; [reflexivity|].
  exact (endBefore_without_neighbour_is_end "json" endBefore_true
           (VArray [VBool true]) eq_refl last_true_not_stepped eq_refl).
Defined.

(** ** Selectors: what a returned object is *)



(** X11: a returned object has no [startAfter], [endBefore] or [prefix],
    and every field of the config other than [start], [end] and these
    three ([reverse], [limit], [value], any other) is in it with the value
    it had. *)
Theorem normalize_keeps_the_other_fields ve (options r : config) (f : string) :
  normalizeKeySelectors (bytewise_layer ve) options = Ok r ->
  r !! "startAfter" = None /\ r !! "endBefore" = None /\ r !! "prefix" = None /\
  (f ∉ ["start"; "end"; "startAfter"; "endBefore"; "prefix"]%string ->
   r !! f = options !! f).
Proof.
  intros Hr. pose proof (normalize_spec ve options) as H.
  rewrite Hr in H. destruct H as (_ & _ & Hsa & Heb & Hp & Hrest).
  repeat split; try assumption. apply Hrest.
Qed.

Lemma limit_is_not_resolved :
  "limit"%string ∉ ["start"; "end"; "startAfter"; "endBefore"; "prefix"]%string.
Proof.
  intros Hin. repeat (apply elem_of_cons in Hin as [Hin|Hin]; [discriminate|]).
  now apply elem_of_nil in Hin.
Qed.

Lemma normalize_keeps_the_other_fields_witness :
  normalizeKeySelectors (bytewise_layer "json") limit_10
  = Ok (<["end" := VArray [VUndefined]]> (<["start" := VArray []]> limit_10)) /\
  (<["end" := VArray [VUndefined]]> (<["start" := VArray []]> limit_10)) !! "limit"
  = limit_10 !! "limit".
Proof.
  assert (normalizeKeySelectors (bytewise_layer "json") limit_10
          = Ok (<["end" := VArray [VUndefined]]> (<["start" := VArray []]> limit_10)))
    as Hr by reflexivity.
  split; [exact Hr|].
  exact (proj2 (proj2 (proj2
           (normalize_keeps_the_other_fields "json" limit_10 _ "limit" Hr)))
           limit_is_not_resolved).
Defined.

(** X12: the method is not idempotent.  Given back an object it returned
    for a config without [value], it appends the maximum sentinel once
    more: going forward to [end], and under [reverse] to [start], which it
    then exchanges with [end]. *)
Theorem normalizing_again_moves_the_bounds ve (options r : config) :
  normalizeKeySelectors (bytewise_layer ve) options = Ok r ->
  options !! "value" = None ->
  exists s e,
    bounds r = Some (s, e) /\
    range_of (normalizeKeySelectors (bytewise_layer ve) r)
    = Some (if truthy (field options "reverse")
            then (e, s ++ [VUndefined]) else (s, e ++ [VUndefined])).
Proof.
  intros Hr Hv.
  destruct (normalize_fields ve options r Hr)
    as (s & e & Hb & Hs & He & Hsa & Heb & Hp & Hrev & Hv').
  exists s, e. split; [exact Hb|].
  assert (conflict r = false) as Hc.
  { unfold conflict, hasOwnProperty. rewrite Hs, He, Hsa, Heb, Hv', Hv. reflexivity. }
  rewrite (normalize_bounds ve r Hc).
  unfold resolved_bounds, lower_bound, upper_bound, with_prefix, field.
  rewrite Hs, He, Hp, Hv', Hv, Hrev. cbn [components].
  destruct (truthy (default VUndefined (options !! "reverse"))); reflexivity.
Qed.

Lemma normalizing_again_moves_the_bounds_witness :
  normalizeKeySelectors (bytewise_layer "json") limit_10
  = Ok (<["end" := VArray [VUndefined]]> (<["start" := VArray []]> limit_10)) /\
  limit_10 !! "value" = None /\
  exists s e,
    bounds (<["end" := VArray [VUndefined]]> (<["start" := VArray []]> limit_10))
    = Some (s, e) /\
    range_of (normalizeKeySelectors (bytewise_layer "json")
                (<["end" := VArray [VUndefined]]> (<["start" := VArray []]> limit_10)))
    = Some (if truthy (field limit_10 "reverse")
            then (e, s ++ [VUndefined]) else (s, e ++ [VUndefined])).
Proof.
  split; [reflexivity|]. split; [reflexivity|].
  exact (normalizing_again_moves_the_bounds "json" limit_10 _ eq_refl eq_refl).
Defined.

(** X13: an object returned for a config with [value] is rejected when it
    is given back to the method: it still holds [value], now beside
    [start] and [end]. *)
Theorem normalized_value_selector_is_rejected ve (options r : config) (v : val) :
  normalizeKeySelectors (bytewise_layer ve) options = Ok r ->
  options !! "value" = Some v ->
  normalizeKeySelectors (bytewise_layer ve) r = Throw InvalidSelectorError.
Proof.
  intros Hr Hv.
  destruct (normalize_fields ve options r Hr)
    as (s & e & Hb & Hs & He & Hsa & Heb & Hp & Hrev & Hv').
  apply normalize_conflict. unfold conflict, hasOwnProperty.
  rewrite Hs, Hv', Hv. reflexivity.
Qed.

Lemma normalized_value_selector_is_rejected_witness :
  normalizeKeySelectors (bytewise_layer "json") value_5
  = Ok (<["start" := VArray [VNumber 5]]>
          (<["end" := VArray [VNumber 5; VUndefined]]> value_5)) /\
  value_5 !! "value" = Some (VNumber 5) /\
  normalizeKeySelectors (bytewise_layer "json")
    (<["start" := VArray [VNumber 5]]>
       (<["end" := VArray [VNumber 5; VUndefined]]> value_5))
  = Throw InvalidSelectorError.
Proof.
  split; [reflexivity|]. split; [reflexivity|].
  exact (normalized_value_selector_is_rejected "json" value_5 _ (VNumber 5)
           eq_refl eq_refl).
Defined.




(** ** Keys: sentinels, neighbours, concatenation *)

(** X15: under the order of the encodings, the empty key is at or below
    every key, the minimum key [[null]] is at or below every key with a
    component, and every key whose first component is not undefined is
    below the maximum key [[undefined]]. *)
Theorem sentinel_keys_bound_the_keys (ve : string) (k : key) :
  let this := bytewise_layer ve in
  exists empty minimum maximum,
    getEmptyKey this = Ok (VArray empty) /\
    getMinimumKey this = Ok (VArray minimum) /\
    getMaximumKey this = Ok (VArray maximum) /\
    key_le empty k /\
    (k <> [] -> key_le minimum k) /\
    (head k <> Some VUndefined -> key_lt k maximum).
Proof.
  intros this. exists [], [VNull], [VUndefined].
  split; [reflexivity|]. split; [reflexivity|]. split; [reflexivity|].
  unfold key_le, key_lt, key_compare. repeat split.
  - destruct k; discriminate.
  - intros Hk. destruct k as [|c rest]; [congruence|]. cbn [lex_compare].
    destruct c as [| |[]| | | |]; cbn [val_compare kind_rank Nat.compare];
      try discriminate.
    destruct rest; discriminate.
  - intros Hk. destruct k as [|c rest]; [reflexivity|]. cbn [lex_compare].
    rewrite val_compare_undefined_max; [reflexivity|].
    intros ->. now apply Hk.
Qed.



Lemma str_compare_cons (a u : code_unit) (s t : jsstring) :
  str_compare (a :: s) (u :: t)
  = match a ?= u with Eq => str_compare s t | c => c end.
Proof. reflexivity. Qed.

(** X17: the strings strictly between a non-empty string [s] and the
    string [_getNextKey] returns for it are exactly the extensions of [s]
    that go on with the code unit 0: these are the strings that a
    [startAfter] at [s] lets through. *)
Theorem strings_below_the_next_string (s t : jsstring) :
  s <> [] -> wf_jsstring t ->
  (str_lt s t /\ str_lt t (next_string s)) <-> (exists rest, t = s ++ 0 :: rest).
Proof.
  intros Hs Hwf. rewrite (next_string_eq s Hs). unfold str_lt. clear Hs.
  split.
  - revert t Hwf. induction s as [|a s IH]; intros t Hwf [H1 H2].
    + destruct t as [|u t]; [discriminate H1|].
      rewrite app_nil_l, str_compare_cons in H2.
      apply Forall_cons in Hwf as [Hu _].
      destruct (Z.compare_spec u 1) as [->|Hu1|Hu1]; try discriminate H2.
      * destruct t; discriminate H2.
      * assert (u = 0) as -> by lia. now exists t.
    + destruct t as [|u t]; [discriminate H1|].
      rewrite <- app_comm_cons, str_compare_cons in H2.
      rewrite str_compare_cons in H1.
      apply Forall_cons in Hwf as [_ Hwf].
      destruct (Z.compare_spec a u) as [->|Hau|Hau]; try discriminate H1.
      * rewrite Z.compare_refl in H2.
        destruct (IH t Hwf (conj H1 H2)) as [rest ->]. now exists rest.
      * assert ((u ?= a) = Gt) as Hgt by (apply Z.compare_gt_iff; lia).
        rewrite Hgt in H2. discriminate.
  - intros [rest ->]. split.
    + rewrite <- (app_nil_r s) at 1. now rewrite str_compare_app.
    + now rewrite str_compare_app.
Qed.

Lemma wf_m_nul : wf_jsstring (js "m" ++ [0]).
Proof. change (js "m" ++ [0]) with [109; 0]. repeat constructor; lia. Qed.

Lemma strings_below_the_next_string_witness :
  js "m" <> [] /\ wf_jsstring (js "m" ++ [0]) /\
  str_lt (js "m") (js "m" ++ [0]) /\
  str_lt (js "m" ++ [0]) (next_string (js "m")).
Proof.
  assert (js "m" <> []) as Hs by discriminate.
  split; [exact Hs|]. split; [exact wf_m_nul|].
  exact (proj2 (strings_below_the_next_string (js "m") (js "m" ++ [0]) Hs wf_m_nul)
           (ex_intro _ [] eq_refl)).
Defined.




(** X19: [concatKeys] is associative, a non-array argument counting as
    the key of that one component, and the empty key is its unit on both
    sides; on a layer with another key encoding both sides of each
    equation throw the same error. *)
Theorem concatKeys_is_associative_with_unit
  (this : AbstractStoreLayer) (a : key) (b c : val) :
  (ab ← concatKeys this (VArray a) b; concatKeys this ab c)
  = (b' ← normalizeKey this b; bc ← concatKeys this b' c;
     concatKeys this (VArray a) bc) /\
  (e ← getEmptyKey this; concatKeys this e b) = normalizeKey this b /\
  (e ← getEmptyKey this; concatKeys this (VArray a) e) = normalizeKey this (VArray a).
Proof.
  unfold concatKeys, normalizeKey, getEmptyKey.
  destruct (is_bytewise this); cbn [negb mbind result_bind]; [|repeat split].
  repeat split.
  - destruct b, c; cbn [Array_concat mbind result_bind];
      rewrite <- ?app_assoc; reflexivity.
  - destruct b; reflexivity.
  - cbn [Array_concat]. now rewrite app_nil_r.
Qed.

(** X20: [normalizeKey] is idempotent, and normalising the second
    argument of [concatKeys] first changes nothing. *)
Theorem normalizeKey_is_idempotent (this : AbstractStoreLayer) (a : key) (x : val) :
  (k ← normalizeKey this x; normalizeKey this k) = normalizeKey this x /\
  (k ← normalizeKey this x; concatKeys this (VArray a) k)
  = concatKeys this (VArray a) x.
Proof.
  unfold normalizeKey, concatKeys.
  destruct (is_bytewise this); cbn [negb]; [|split; reflexivity].
  destruct x; split; reflexivity.
Qed.

(** ** The codecs' entry points under every encoding *)

Section codec_entry_points.
Context `{Externals}.

Lemma encode_encoding_error (value : val) (encoding : string) :
  encode value encoding = Throw EncodingError <-> known_encoding encoding = false.
Proof.
  unfold encode, known_encoding.
  destruct (bool_decide (encoding = "bytewise"%string)); cbn [orb].
  - split; [|discriminate]. destruct (bytewise_encode value); discriminate.
  - destruct (bool_decide (encoding = "json"%string)).
    + split; [|discriminate].
      destruct value; try discriminate; destruct (JSON_stringify _); discriminate.
    + split; reflexivity.
Qed.

Lemma decode_encoding_error (value : val) (encoding : string) :
  decode value encoding = Throw EncodingError <-> known_encoding encoding = false.
Proof.
  unfold decode, known_encoding.
  destruct (bool_decide (encoding = "bytewise"%string)); cbn [orb].
  - split; [|discriminate]. destruct (bytewise_decode value); discriminate.
  - destruct (bool_decide (encoding = "json"%string)).
    + split; [|discriminate]. destruct (JSON_parse value); discriminate.
    + split; reflexivity.
Qed.

(** X21: ['Unknown encoding'] is raised exactly when an encoding other
    than ['bytewise'] and ['json'] is reached: by [encode] and [decode]
    for every value; by [encodeKey] and [decodeKey] for the truthy keys
    only, the key guard coming first; by [encodeValue] and [decodeValue]
    for the values other than null and undefined only. *)
Theorem unknown_encoding_is_raised_past_the_guards
  (this : AbstractStoreLayer) (v : val) (encoding : string) :
  (encode v encoding = Throw EncodingError <-> known_encoding encoding = false) /\
  (decode v encoding = Throw EncodingError <-> known_encoding encoding = false) /\
  (encodeKey this v = Throw EncodingError
   <-> truthy v = true /\ known_encoding (keyEncoding this) = false) /\
  (decodeKey this v = Throw EncodingError
   <-> truthy v = true /\ known_encoding (keyEncoding this) = false) /\
  (encodeValue this v = Throw EncodingError
   <-> loosely_null v = false /\ known_encoding (valueEncoding this) = false) /\
  (decodeValue this v = Throw EncodingError
   <-> loosely_null v = false /\ known_encoding (valueEncoding this) = false).
Proof.
  split; [apply encode_encoding_error|]. split; [apply decode_encoding_error|].
  unfold encodeKey, decodeKey, encodeValue, decodeValue.
  destruct (truthy v), (loosely_null v); cbn [negb];
    rewrite ?encode_encoding_error, ?decode_encoding_error;
    repeat split; try discriminate; try tauto; intros [? ?]; discriminate.
Qed.



Lemma decode_encode (v : val) (encoding : string) :
  representable_under encoding v ->
  exists bs, encode v encoding = Ok (VBuffer bs) /\
             decode (VBuffer bs) encoding = Ok v.
Proof.
  unfold representable_under, encode, decode.
  case_bool_decide as Hb.
  - intros (bs & Henc & Hdec). exists bs. rewrite Henc, Hdec. split; reflexivity.
  - case_bool_decide as Hj; [|contradiction].
    intros [(s & Henc & Hdec) Hu]. exists (Buffer_of_string s).
    destruct v; try congruence; rewrite Henc, Hdec; split; reflexivity.
Qed.

(** X23: under either encoding, for keys and for values, decoding what
    the entry point encoded gives the input back: [decodeKey] after
    [encodeKey] for a truthy key that the key encoding represents,
    [decodeValue] after [encodeValue] for a value other than null and
    undefined that the value encoding represents. *)
Theorem entry_points_round_trip (this : AbstractStoreLayer) (k v : val) :
  truthy k = true ->
  representable_under (keyEncoding this) k ->
  loosely_null v = false ->
  representable_under (valueEncoding this) v ->
  encodeKey this k ≫= decodeKey this = Ok k /\
  encodeValue this v ≫= decodeValue this = Ok v.
Proof.
  intros Ht Hk Hn Hv.
  destruct (decode_encode k _ Hk) as (bk & Hek & Hdk).
  destruct (decode_encode v _ Hv) as (bv & Hev & Hdv).
  unfold encodeKey, encodeValue. rewrite Ht, Hn, Hek, Hev. cbn [negb mbind result_bind].
  unfold decodeKey, decodeValue. cbn [truthy loosely_null negb]. auto.
Qed.
End codec_entry_points.


Lemma true_under_bytewise : representable_under "bytewise" (VBool true).
Proof. exists [Byte.x21]. split; reflexivity. Qed.

Lemma false_under_json : representable_under "json" (VBool false).
Proof. split; [|discriminate]. exists (js "false"). split; reflexivity. Qed.

Lemma entry_points_round_trip_witness :
  truthy (VBool true) = true /\
  representable_under "bytewise" (VBool true) /\
  loosely_null (VBool false) = false /\
  representable_under "json" (VBool false) /\
  encodeKey (new_AbstractStoreLayer None None) (VBool true)
    ≫= decodeKey (new_AbstractStoreLayer None None) = Ok (VBool true) /\
  encodeValue (new_AbstractStoreLayer None None) (VBool false)
    ≫= decodeValue (new_AbstractStoreLayer None None) = Ok (VBool false).
Proof.
  split; [reflexivity|]. split; [exact true_under_bytewise|].
  split; [reflexivity|]. split; [exact false_under_json|].
  exact (entry_points_round_trip (new_AbstractStoreLayer None None)
           (VBool true) (VBool false)
           eq_refl true_under_bytewise eq_refl false_under_json).
Defined.

(** ** The object store: which key methods copy *)

Module StoreKeys.
Import Store.

(** A computation that leaves [h0] alone and returns, when it does, a
    value that satisfies [P]. *)
Lemma frames_safe h0 {A} (m : M A) (P : A -> Prop) :
  safe h0 m ->
  (forall h, match (m h).1 with Ok a => P a | Throw _ => True end) ->
  frames h0 m P.
Proof.
  intros Hs HP h Hh. split; [apply (Hs h Hh) | apply HP].
Qed.

(** [pop] and [push] change the array in place: what is returned is the
    reference the method was given. *)
Lemma adjacent_returns_keys (f : value -> value) (keys : value) (h : store) :
  match (adjacent f keys h).1 with Ok v => v = keys | Throw _ => True end.
Proof.
  unfold adjacent. destruct keys as [| | | |[|]|l]; try exact I; try reflexivity.
  unfold mbind, M_bind, read, write.
  destruct (h !! l) as [[items|[|]|fields]|]; try exact I; try reflexivity.
  - destruct (last items); [|reflexivity].
    rewrite lookup_insert_eq. reflexivity.
  - destruct (negb _); [reflexivity | exact I].
Qed.

Lemma frames_adjacent h0 (f : value -> value) (keys : value) :
  new_or_primitive h0 keys -> frames h0 (adjacent f keys) (new_or_primitive h0).
Proof.
  intros Hk. apply frames_safe; [now apply StoreFacts.safe_adjacent|].
  intros h. pose proof (adjacent_returns_keys f keys h) as Hr.
  destruct (adjacent f keys h).1; [now subst | exact I].
Qed.

Lemma frames_getPreviousKey h0 this (key : value) :
  frames h0 (getPreviousKey this key) (new_or_primitive h0).
Proof.
  unfold getPreviousKey. destruct (negb _); [apply StoreFacts.frames_throw|].
  eapply StoreFacts.frames_bind; [apply StoreFacts.frames_clone|].
  intros keys. apply frames_adjacent.
Qed.

Lemma frames_getNextKey h0 this (key : value) :
  frames h0 (getNextKey this key) (new_or_primitive h0).
Proof.
  unfold getNextKey. destruct (negb _); [apply StoreFacts.frames_throw|].
  eapply StoreFacts.frames_bind; [apply StoreFacts.frames_clone|].
  intros keys. apply frames_adjacent.
Qed.

Lemma frames_concatKeys h0 this (key1 key2 : value) :
  frames h0 (concatKeys this key1 key2) (new_ref h0).
Proof.
  unfold concatKeys, Array_concat. destruct (negb _); [apply StoreFacts.frames_throw|].
  destruct key1; try apply StoreFacts.frames_throw.
  eapply StoreFacts.frames_bind; [apply StoreFacts.frames_read|]. intros o1 _.
  destruct o1; try apply StoreFacts.frames_throw.
  destruct key2; try apply StoreFacts.frames_alloc.
  eapply StoreFacts.frames_bind; [apply StoreFacts.frames_read|]. intros o2 _.
  destruct o2; apply StoreFacts.frames_alloc.
Qed.

(** X24: [getPreviousKey], [getNextKey], [concatKeys], [getEmptyKey] and
    [getMaximumKey] write no object that existed before the call, whether
    they return or throw, and a reference they return is to an object that
    did not exist before: the caller's key arrays are never changed nor
    handed back. *)
Theorem built_keys_are_new_arrays
  (this : AbstractStoreLayer) (key key2 : value) (h : store) :
  let untouched (r : result value * store) := h ⊆ r.2 in
  let new (r : result value * store) :=
    match r.1 with
    | Ok (Ref l) => h !! l = None
    | _ => True
    end in
  untouched (getPreviousKey this key h) /\ new (getPreviousKey this key h) /\
  untouched (getNextKey this key h) /\ new (getNextKey this key h) /\
  untouched (concatKeys this key key2 h) /\ new (concatKeys this key key2 h) /\
  untouched (getEmptyKey this h) /\ new (getEmptyKey this h) /\
  untouched (getMaximumKey this h) /\ new (getMaximumKey this h).
Proof.
  intros untouched new.
  assert (forall m, frames h m (new_or_primitive h) ->
                    untouched (m h) /\ new (m h)) as Hnew.
  { intros m Hm. destruct (Hm h (reflexivity h)) as [Hsub Hres].
    split; [exact Hsub|]. unfold new. destruct (m h).1 as [[]|]; auto. }
  assert (forall m, frames h m (new_ref h) -> frames h m (new_or_primitive h)) as Href.
  { intros m Hm. eapply StoreFacts.frames_weaken; [exact Hm|].
    intros a (l & -> & Hl). exact Hl. }
  repeat match goal with |- _ /\ _ /\ _ => apply and_assoc; split end.
  - apply Hnew, frames_getPreviousKey.
  - apply Hnew, frames_getNextKey.
  - apply Hnew, Href, frames_concatKeys.
  - apply Hnew, Href. unfold getEmptyKey.
    destruct (negb _); [apply StoreFacts.frames_throw | apply StoreFacts.frames_alloc].
  - apply Hnew, Href. unfold getMaximumKey.
    destruct (negb _); [apply StoreFacts.frames_throw | apply StoreFacts.frames_alloc].
Qed.


End StoreKeys.
